(** * Build agent base class ([src/agents/common/build-agent.ts])

    A shallow embedding of [BuildAgentBase] and a verification of its
    documented behaviour.  The class talks to four pieces of the platform:
    the process environment, the file system, the child-process layer and
    Node's [path] module.  Each of them is modelled below as plain data in
    an explicit program state; the methods of the class are functions in a
    state-and-exception monad over that state.

    Conventions.
    - A JavaScript string is a [string] holding its text in UTF-8.  [trim]
      removes every white-space character of the language, whatever its
      length in bytes; [toUpperCase] and [toLowerCase] change the ASCII
      letters: the names in a reference to a variable are ASCII by the
      regular expression that finds them, and the keys of inputs are taken
      to be written in ASCII as well.
    - [path] is the POSIX flavour of Node's module, and the file system
      resolves names as a POSIX system does.  [process.platform] is part
      of the state because [addPath] and the locator read it; what is
      proved about paths and files that depends on the flavour is stated
      for the platforms other than Windows.
    - [process.env] is an object: a name that is no variable may still be
      the name of an inherited member.
    - An [async] method that rejects is a method that throws. *)

From Stdlib Require Import Ascii String ZArith Lia Bool.
From stdpp Require Import base option list strings gmap fin_maps.

Set Default Proof Using "Type".
Local Open Scope Z_scope.
Local Open Scope nat_scope.

(** ** JavaScript string primitives *)

Module Js.

(** [!s] on a string: only the empty string is falsy. *)
Definition falsy (s : string) : bool :=
  match s with "" => true | String _ _ => false end.

Definition truthy (s : string) : bool := negb (falsy s).

(** [a || b] on strings. *)
Definition or_else (a b : string) : string := if falsy a then b else a.

(** White space as [String.prototype.trim] knows it: the ECMAScript
    WhiteSpace and LineTerminator characters.  A string is read as UTF-8,
    so a white-space character is one, two or three bytes long:
    U+0009 to U+000D and U+0020; U+00A0; U+1680; U+2000 to U+200A, U+2028,
    U+2029 and U+202F; U+205F; U+3000; U+FEFF. *)
Definition ws3 (a b c : nat) : bool :=
  (a =? 225) && (b =? 154) && (c =? 128)
  || (a =? 226) && (b =? 128) &&
       ((128 <=? c) && (c <=? 138) || (c =? 168) || (c =? 169) || (c =? 175))
  || (a =? 226) && (b =? 129) && (c =? 159)
  || (a =? 227) && (b =? 128) && (c =? 128)
  || (a =? 239) && (b =? 187) && (c =? 191).

(** What follows the white-space character at the head of [s], if there is
    one. *)
Definition ws_head (s : string) : option string :=
  match s with
  | "" => None
  | String a r =>
      if Ascii.is_space a then Some r
      else
        match r with
        | "" => None
        | String b r' =>
            if (nat_of_ascii a =? 194) && (nat_of_ascii b =? 160) then Some r'
            else
              match r' with
              | "" => None
              | String c r'' =>
                  if ws3 (nat_of_ascii a) (nat_of_ascii b) (nat_of_ascii c)
                  then Some r'' else None
              end
        end
  end.

(** [fuel] bounds the number of characters dropped; the length of the string
    is always enough. *)
Fixpoint trimStart_go (fuel : nat) (s : string) : string :=
  match fuel with
  | O => s
  | S n => match ws_head s with Some r => trimStart_go n r | None => s end
  end.

Definition trimStart (s : string) : string := trimStart_go (String.length s) s.

(** A blank string is empty or made of white space only. *)
Definition blank (s : string) : bool := falsy (trimStart s).

(** The longest blank suffix is cut off. *)
Fixpoint trimEnd (s : string) : string :=
  match s with
  | "" => ""
  | String c s' => if blank s then "" else String c (trimEnd s')
  end.

Definition trim (s : string) : string := trimEnd (trimStart s).

Definition upper_char (c : ascii) : ascii :=
  let n := nat_of_ascii c in
  if (97 <=? n) && (n <=? 122) then ascii_of_nat (n - 32) else c.

Definition lower_char (c : ascii) : ascii :=
  let n := nat_of_ascii c in
  if (65 <=? n) && (n <=? 90) then ascii_of_nat (n + 32) else c.

Fixpoint map_chars (f : ascii → ascii) (s : string) : string :=
  match s with
  | "" => ""
  | String c s' => String (f c) (map_chars f s')
  end.

Definition toUpperCase : string → string := map_chars upper_char.
Definition toLowerCase : string → string := map_chars lower_char.

(** [s.replace(/ /g, '_')] *)
Definition spaces_to_underscores : string → string :=
  map_chars (λ c, if Ascii.eqb c " " then "_"%char else c).

(** Every backslash becomes a slash, as in [sourceDir]. *)
Definition backslashes_to_slashes : string → string :=
  map_chars (λ c, if Ascii.eqb c "092" then "/"%char else c).

Fixpoint startsWith (p s : string) : bool :=
  match p, s with
  | "", _ => true
  | String a p', String b s' => Ascii.eqb a b && startsWith p' s'
  | String _ _, "" => false
  end.

(** [s.split(sep)].  With the empty separator the string is cut into its
    characters (its bytes here, which is the same for ASCII text);
    otherwise it is cut at every occurrence of [sep], scanned
    left to right without overlap.  [skip] counts the characters of a
    separator still to be passed over, [cur] is the piece being read, in
    reverse. *)
Fixpoint split_go (sep s : string) (skip : nat) (cur : string) : list string :=
  match s with
  | "" => [String.rev cur]
  | String c s' =>
      match skip with
      | S k => split_go sep s' k cur
      | O =>
          if startsWith sep s
          then String.rev cur :: split_go sep s' (String.length sep - 1) ""
          else split_go sep s' 0 (String c cur)
      end
  end.

Fixpoint chars (s : string) : list string :=
  match s with
  | "" => []
  | String c s' => String c "" :: chars s'
  end.

Definition split (sep s : string) : list string :=
  match sep with
  | "" => chars s
  | _ => split_go sep s 0 ""
  end.

(** [l.join(sep)] *)
Fixpoint join (sep : string) (l : list string) : string :=
  match l with
  | [] => ""
  | [x] => x
  | x :: l' => x +:+ sep +:+ join sep l'
  end.

(** The line feed, ["\n"]. *)
Definition LF : string := String "010" "".

(** The members every object inherits from [Object.prototype]: reading one
    of these names off an object that has no such property of its own gives
    the inherited member, not [undefined]. *)
Definition object_members : list string :=
  ["constructor"; "hasOwnProperty"; "isPrototypeOf"; "propertyIsEnumerable";
   "toLocaleString"; "toString"; "valueOf"; "__proto__";
   "__defineGetter__"; "__defineSetter__";
   "__lookupGetter__"; "__lookupSetter__"].

End Js.

(** ** Node's [path] module, POSIX flavour

    [normalizeString] walks the path once and keeps the segments seen so
    far; an empty segment or [.] is dropped, [..] removes the segment
    before it when there is one to remove, and is kept only in a relative
    path.  [segs] holds the segments kept so far, last one first. *)

Module Path.

Definition isAbsolute (p : string) : bool := Js.startsWith "/" p.

Fixpoint endsWithSep (p : string) : bool :=
  match p with
  | "" => false
  | String c "" => Ascii.eqb c "/"
  | String _ p' => endsWithSep p'
  end.

Definition normalize_step (allowAboveRoot : bool) (segs : list string)
    (seg : string) : list string :=
  if decide (seg = "" ∨ seg = ".") then segs
  else if decide (seg = "..") then
    match segs with
    | top :: rest =>
        if decide (top = "..")
        then (if allowAboveRoot then ".." :: segs else segs)
        else rest
    | [] => if allowAboveRoot then [".."] else []
    end
  else seg :: segs.

Definition normalize_segments (allowAboveRoot : bool) (l : list string)
    : list string :=
  rev (fold_left (normalize_step allowAboveRoot) l []).

Definition normalizeString (p : string) (allowAboveRoot : bool) : string :=
  Js.join "/" (normalize_segments allowAboveRoot (Js.split "/" p)).

(** [path.normalize(p)] *)
Definition normalize (p : string) : string :=
  if Js.falsy p then "."
  else
    let abs := isAbsolute p in
    let trailing := endsWithSep p in
    let q := normalizeString p (negb abs) in
    if Js.falsy q then
      (if abs then "/" else if trailing then "./" else ".")
    else
      let q' := if trailing then q +:+ "/" else q in
      if abs then "/" +:+ q' else q'.

(** [path.join(...args)]: the non-empty arguments, glued with [/], then
    normalised. *)
Definition join (args : list string) : string :=
  match filter (λ a, Js.truthy a = true) args with
  | [] => "."
  | parts => normalize (Js.join "/" parts)
  end.

(** The loop of [path.resolve]: arguments are taken from the right until
    an absolute one is met; the working directory comes last. *)
Fixpoint resolve_go (rargs : list string) (cwd : string) (acc : string)
    : string * bool :=
  match rargs with
  | [] =>
      if Js.falsy cwd then (acc, false)
      else (cwd +:+ "/" +:+ acc, isAbsolute cwd)
  | p :: rest =>
      if Js.falsy p then resolve_go rest cwd acc
      else
        let acc' := p +:+ "/" +:+ acc in
        if isAbsolute p then (acc', true) else resolve_go rest cwd acc'
  end.

(** The segments of [path.resolve(...args)]. *)
Definition resolve_segments (cwd : string) (args : list string) : list string :=
  let '(joined, abs) := resolve_go (rev args) cwd "" in
  normalize_segments (negb abs) (Js.split "/" joined).

(** [path.resolve(...args)], [cwd] being [process.cwd()]. *)
Definition resolve (cwd : string) (args : list string) : string :=
  let '(joined, abs) := resolve_go (rev args) cwd "" in
  let q := normalizeString joined (negb abs) in
  if abs then "/" +:+ q
  else if Js.truthy q then q else ".".

End Path.

(** ** The file system

    A file system is a finite map from places (lists of segments, the
    root being [[]]) to entries.  The root is always a directory.  A path
    name is resolved to a place by walking it, component by component, as
    the system does; symbolic links are not modelled. *)

Module Fs.

Inductive Entry :=
  | EFile (data : string)
  | EDir.

Global Instance Entry_eq_dec : EqDecision Entry.
Proof. solve_decision. Defined.

Abbreviation Key := (list string).
Abbreviation Tree := (gmap (list string) Entry).

Definition is_dir (e : Entry) : bool :=
  match e with EDir => true | EFile _ => false end.

Definition is_file (e : Entry) : bool :=
  match e with EFile _ => true | EDir => false end.

Definition lookup (t : Tree) (k : Key) : option Entry :=
  match k with
  | [] => Some EDir
  | _ => t !! k
  end.

(** How the system resolves a path name, one component after the other,
    from the directory [cur].  Every component, the empty one after a
    trailing slash included, is looked up in a directory that must exist;
    [..] steps to the parent.  Nothing is simplified beforehand: a path
    through a missing directory or through a file fails even when [..]
    would lead out of it again. *)
Inductive Found :=
  | Here (k : Key) (e : Entry)
  | NoEntry           (* ENOENT *)
  | NotDirectory.     (* ENOTDIR *)

Fixpoint walk (t : Tree) (cur : Key) (names : list string) : Found :=
  match names with
  | [] =>
      match lookup t cur with
      | Some e => Here cur e
      | None => NoEntry
      end
  | x :: rest =>
      match lookup t cur with
      | None => NoEntry
      | Some (EFile _) => NotDirectory
      | Some EDir =>
          if bool_decide (x = "" ∨ x = ".") then walk t cur rest
          else if bool_decide (x = "..") then walk t (removelast cur) rest
          else walk t (cur ++ [x]) rest
      end
  end.

(** The same walk for [mkdir -p]: a component that is missing is created.
    A file on the way is an error: [EEXIST] when it is the last component,
    [ENOTDIR] before that. *)
Fixpoint make (t : Tree) (cur : Key) (names : list string) : string + Tree :=
  match names with
  | [] =>
      match lookup t cur with
      | Some EDir => inr t
      | Some (EFile _) => inl "EEXIST"
      | None => inl "ENOENT"
      end
  | x :: rest =>
      match lookup t cur with
      | None => inl "ENOENT"
      | Some (EFile _) => inl "ENOTDIR"
      | Some EDir =>
          if bool_decide (x = "" ∨ x = ".") then make t cur rest
          else if bool_decide (x = "..") then make t (removelast cur) rest
          else
            match lookup t (cur ++ [x]) with
            | None => make (<[cur ++ [x] := EDir]> t) (cur ++ [x]) rest
            | Some _ => make t (cur ++ [x]) rest
            end
      end
  end.

(** Every entry below the root sits in a directory. *)
Definition well_formed (t : Tree) : Prop :=
  ∀ k x e, t !! (k ++ [x]) = Some e → lookup t k = Some EDir.

(** The same, as a test that can be run. *)
Definition well_formedb (t : Tree) : bool :=
  bool_decide (map_Forall (λ q _, lookup t (removelast q) = Some EDir) t).

(** [rm -rf]: the entry and everything below it. *)
Definition remove (k : Key) (t : Tree) : Tree :=
  filter (λ kv, ¬ k `prefix_of` kv.1) t.

(** Everything below the entry, the entry itself staying. *)
Definition remove_below (k : Key) (t : Tree) : Tree :=
  filter (λ kv, ¬ (k `prefix_of` kv.1 ∧ kv.1 ≠ k)) t.

(** The non-empty prefixes of a path, shortest first. *)
Fixpoint ancestors (k : Key) : list Key :=
  match k with
  | [] => []
  | x :: k' => [x] :: map (cons x) (ancestors k')
  end.

(** [mkdir -p] fails when a file is in the way. *)
Definition mkdirp (k : Key) (t : Tree) : option Tree :=
  if forallb (λ q, match t !! q with Some (EFile _) => false | _ => true end)
             (ancestors k)
  then Some (foldr (λ q acc, <[q := EDir]> acc) t (ancestors k))
  else None.

(** Where an entry below [src] lands when [src] is copied onto [dst]. *)
Fixpoint strip (src k : Key) : option Key :=
  match src, k with
  | [], _ => Some k
  | a :: src', b :: k' => if decide (a = b) then strip src' k' else None
  | _ :: _, [] => None
  end.

Definition rebase (src dst k : Key) : option Key :=
  (λ r, dst ++ r) <$> strip src k.

(** The entries of [t] at or below [src], keyed by their place at or
    below [dst]. *)
Definition moved (src dst : Key) (t : Tree) : Tree :=
  list_to_map
    (omap (λ kv, (λ k', (k', kv.2)) <$> rebase src dst kv.1) (map_to_list t)).

(** With [force], a file replaces a file and a directory merges into a
    directory; a file never replaces a directory, nor the reverse. *)
Definition compatible (old : option Entry) (new : Entry) : bool :=
  match old, new with
  | None, _ => true
  | Some (EFile _), EFile _ => true
  | Some EDir, EDir => true
  | _, _ => false
  end.

(** [fs.cp(src, dst, { recursive: true, force: true })] on the tree.
    [check_paths] is the validation Node runs before it copies anything;
    the same validation, run again on every entry below [src], is the
    [compatible] test on the entries to be written.  A copy that fails is
    modelled as leaving the tree as it was. *)
Inductive CpError :=
  | CpNoEnt            (* the source does not exist *)
  | CpSame             (* source and destination are the same *)
  | CpDirToNonDir
  | CpNonDirToDir
  | CpIntoSelf         (* a directory copied below itself *)
  | CpParent.          (* the destination's parent cannot be created *)

Definition check_paths (src dst : Key) (t : Tree) : CpError + Entry :=
  match lookup t src with
  | None => inl CpNoEnt
  | Some e =>
      let below_self :=
        if is_dir e && bool_decide (src `prefix_of` dst)
        then inl CpIntoSelf else inr e in
      match lookup t dst with
      | Some d =>
          if decide (src = dst) then inl CpSame
          else if is_dir e && negb (is_dir d) then inl CpDirToNonDir
          else if negb (is_dir e) && is_dir d then inl CpNonDirToDir
          else below_self
      | None => below_self
      end
  end.

Definition copy (src dst : Key) (t : Tree) : CpError + Tree :=
  match check_paths src dst t with
  | inl err => inl err
  | inr e =>
      match mkdirp (removelast dst) t with
      | None => inl CpParent
      | Some t' =>
          let m := moved src dst t' in
          if bool_decide (map_Forall (λ k e', compatible (t' !! k) e' = true) m)
          then inr (m ∪ (if is_dir e then <[dst := EDir]> t' else t'))
          else inl CpDirToNonDir
      end
  end.

End Fs.

(** ** Program state and the monad of agent methods *)

Inductive Level := LDebug | LInfo | LWarn | LError.

(** The [code] field of an error, as JavaScript sees it. *)
Inductive Code :=
  | CNum (n : Z)
  | CStr (s : string)
  | CNull
  | CUndefined.

(** A thrown [Error], with the fields that [exec] reads back from it. *)
Record JsError := mkError {
  message : string;
  err_code : Code;
  err_stdout : option string;
  err_stderr : option string
}.

(** [new Error(msg)] *)
Definition Error (msg : string) : JsError := mkError msg CUndefined None None.

(** The [TypeError] of a call to something that is not a function; [callee]
    is the text of the expression that was called. *)
Definition not_a_function (callee : string) : JsError :=
  mkError (callee +:+ " is not a function") CUndefined None None.

(** How running a command line ends: the process exits, is killed by a
    signal, cannot be spawned (or overruns the output buffer), or the call
    is refused before anything is spawned. *)
Inductive ChildOutcome :=
  | Exited (status : Z) (out err : string)
  | Signalled (signal : string) (out err : string)
  | SpawnFailed (errno : string) (out err : string)
  | Refused (errno : string).

Inductive FsCall :=
  | FsAccess (p : string)
  | FsStat (p : string)
  | FsRm (p : string)
  | FsMkdir (p : string)
  | FsCp (src dst : string).

Record State := mkState {
  env : gmap string string;          (* process.env *)
  platform : string;                 (* process.platform *)
  cwd : list string;                 (* process.cwd(), as segments *)
  tree : Fs.Tree;                    (* the file system *)
  fault : list string → option string;
      (* places on which every file-system call fails, with the errno *)
  child : string → ChildOutcome;     (* what running a command line gives *)
  log : list (Level * string);       (* what the host was asked to log *)
  calls : list FsCall                (* the file-system calls made so far *)
}.

Inductive Result (A : Type) :=
  | Ok (a : A)
  | Throw (e : JsError).
Arguments Ok {A} a.
Arguments Throw {A} e.

Definition M (A : Type) : Type := State → Result A * State.

Definition ret {A} (a : A) : M A := λ s, (Ok a, s).
Definition throw {A} (e : JsError) : M A := λ s, (Throw e, s).

Definition bind {A B} (m : M A) (f : A → M B) : M B :=
  λ s, match m s with
       | (Ok a, s') => f a s'
       | (Throw e, s') => (Throw e, s')
       end.

(** [try { m } catch (e) { h e }] *)
Definition try_catch {A} (m : M A) (h : JsError → M A) : M A :=
  λ s, match m s with
       | (Ok a, s') => (Ok a, s')
       | (Throw e, s') => h e s'
       end.

Notation "'let!' x ':=' m 'in' k" := (bind m (λ x, k))
  (at level 10, x name, m at level 100, k at level 200, only parsing).
Notation "'run' m 'then' k" := (bind m (λ _, k))
  (at level 10, m at level 100, k at level 200, only parsing).

Definition get : M State := λ s, (Ok s, s).
Definition modify (f : State → State) : M unit := λ s, (Ok tt, f s).

Definition set_env (f : gmap string string → gmap string string) (s : State) : State :=
  mkState (f (env s)) (platform s) (cwd s) (tree s) (fault s) (child s) (log s) (calls s).
Definition set_tree (t : Fs.Tree) (s : State) : State :=
  mkState (env s) (platform s) (cwd s) t (fault s) (child s) (log s) (calls s).
Definition add_log (l : Level) (msg : string) (s : State) : State :=
  mkState (env s) (platform s) (cwd s) (tree s) (fault s) (child s)
          (log s ++ [(l, msg)]) (calls s).
Definition add_call (c : FsCall) (s : State) : State :=
  mkState (env s) (platform s) (cwd s) (tree s) (fault s) (child s) (log s)
          (calls s ++ [c]).

(** *** [node:process] *)

(** [process.env[name]]: the value of the variable when it is set; otherwise
    what the object inherits under that name, if anything. *)
Inductive EnvValue :=
  | EnvString (v : string)
  | EnvMember
  | EnvUndefined.

Definition process_env (s : State) (name : string) : EnvValue :=
  match env s !! name with
  | Some v => EnvString v
  | None =>
      if bool_decide (name ∈ Js.object_members) then EnvMember else EnvUndefined
  end.

Definition process_cwd (s : State) : string := "/" +:+ Js.join "/" (cwd s).

(** [path.delimiter] *)
Definition path_delimiter (s : State) : string :=
  if decide (platform s = "win32") then ";" else ":".

(** [path.resolve(p)] and the place in the tree a path names. *)
Definition path_resolve (p : string) : M string :=
  λ s, (Ok (Path.resolve (process_cwd s) [p]), s).

Definition key_of (s : State) (p : string) : Fs.Key :=
  Path.resolve_segments (process_cwd s) [p].

(** The working directory as a place in the tree, and the entry the system
    finds under a path name.  The empty name finds nothing. *)
Definition cwd_key (s : State) : Fs.Key := key_of s "".

Definition locate (s : State) (p : string) : Fs.Found :=
  if Js.falsy p then Fs.NoEntry
  else Fs.walk (tree s) (if Path.isAbsolute p then [] else cwd_key s)
                        (Js.split "/" p).

(** What a program can see at a path: nothing on a faulty path. *)
Definition seen (s : State) (p : string) : option Fs.Entry :=
  match locate s p with
  | Fs.Here k e => match fault s k with Some _ => None | None => Some e end
  | _ => None
  end.

(** *** [node:fs/promises] *)

Definition fs_error (errno : string) : JsError := mkError errno (CStr errno) None None.

(** Every call is recorded; it fails when the path leads nowhere, and is
    refused when the entry it leads to is faulty. *)
Definition fs_enter (c : FsCall) (p : string) : M (Fs.Key * Fs.Entry) :=
  run modify (add_call c) then
  let! s := get in
  match locate s p with
  | Fs.Here k e =>
      match fault s k with
      | Some errno => throw (fs_error errno)
      | None => ret (k, e)
      end
  | Fs.NoEntry => throw (fs_error "ENOENT")
  | Fs.NotDirectory => throw (fs_error "ENOTDIR")
  end.

Definition fs_access (p : string) : M unit :=
  let! _ := fs_enter (FsAccess p) p in
  ret tt.

Definition fs_stat (p : string) : M Fs.Entry :=
  let! found := fs_enter (FsStat p) p in
  ret found.2.

(** [fs.rm(p, { recursive: true, force: true, ... })].  With [force] a
    path that names nothing is no error, but a path through a file is.
    What is below the entry goes first; the path is then resolved once
    more for the entry itself, and nothing is done when it no longer leads
    anywhere. *)
Definition fs_rm (p : string) : M unit :=
  run modify (add_call (FsRm p)) then
  let! s := get in
  match locate s p with
  | Fs.NoEntry => ret tt
  | Fs.NotDirectory => throw (fs_error "ENOTDIR")
  | Fs.Here k _ =>
      match fault s k with
      | Some errno => throw (fs_error errno)
      | None =>
          let below := Fs.remove_below k (tree s) in
          match locate (set_tree below s) p with
          | Fs.Here k' _ => modify (set_tree (Fs.remove k' below))
          | _ => modify (set_tree below)
          end
      end
  end.

(** [fs.mkdir(p, { recursive: true })] *)
Definition fs_mkdir (p : string) : M unit :=
  run modify (add_call (FsMkdir p)) then
  let! s := get in
  if Js.falsy p then throw (fs_error "ENOENT")
  else
    match fault s (key_of s p) with
    | Some errno => throw (fs_error errno)
    | None =>
        match Fs.make (tree s) (if Path.isAbsolute p then [] else cwd_key s)
                      (Js.split "/" p) with
        | inr t => modify (set_tree t)
        | inl errno => throw (fs_error errno)
        end
    end.

Definition cp_errno (e : Fs.CpError) : string :=
  match e with
  | Fs.CpNoEnt => "ENOENT"
  | Fs.CpSame | Fs.CpIntoSelf => "ERR_FS_CP_EINVAL"
  | Fs.CpDirToNonDir => "ERR_FS_CP_DIR_TO_NON_DIR"
  | Fs.CpNonDirToDir => "ERR_FS_CP_NON_DIR_TO_DIR"
  | Fs.CpParent => "ENOTDIR"
  end.

(** [fs.cp(src, dst, { recursive: true, force: true })].  The source
    must exist; the destination may not, and is then the place its name
    stands for. *)
Definition fs_cp (src dst : string) : M unit :=
  let! found := fs_enter (FsCp src dst) src in
  let! s := get in
  match locate s dst with
  | Fs.NotDirectory => throw (fs_error "ENOTDIR")
  | _ =>
      match fault s (key_of s dst) with
      | Some errno => throw (fs_error errno)
      | None =>
          match Fs.copy found.1 (key_of s dst) (tree s) with
          | inr t => modify (set_tree t)
          | inl e => throw (fs_error (cp_errno e))
          end
      end
  end.

(** *** [node:child_process]

    The promisified [exec]: it resolves with the two streams when the
    command exits with status 0, and rejects otherwise with an error that
    carries the status (or [null], or the errno) and the streams.  A call
    that is refused throws an error without streams. *)
Definition child_process_exec (cmdline : string) : M (string * string) :=
  let! s := get in
  match child s cmdline with
  | Exited 0 out err => ret (out, err)
  | Exited n out err =>
      throw (mkError ("Command failed: " +:+ cmdline) (CNum n) (Some out) (Some err))
  | Signalled sig out err =>
      throw (mkError ("Command failed: " +:+ cmdline) CNull (Some out) (Some err))
  | SpawnFailed errno out err =>
      throw (mkError ("spawn " +:+ errno) (CStr errno) (Some out) (Some err))
  | Refused errno => throw (mkError errno (CStr errno) None None)
  end.

(** ** References to environment variables in a pattern

    The regular expression of [getExpandedString] matched by hand: a [$],
    then either a name or a name in braces, a name being a letter or an
    underscore followed by letters, digits and underscores. *)

Module Ref.

Definition is_letter (c : ascii) : bool :=
  let n := nat_of_ascii c in
  ((65 <=? n) && (n <=? 90)) || ((97 <=? n) && (n <=? 122)).

Definition is_digit (c : ascii) : bool :=
  let n := nat_of_ascii c in (48 <=? n) && (n <=? 57).

Definition name_start (c : ascii) : bool := is_letter c || Ascii.eqb c "_".
Definition name_char (c : ascii) : bool := name_start c || is_digit c.

(** The longest run of name characters at the head of [s], and the rest. *)
Fixpoint span (s : string) : string * string :=
  match s with
  | "" => ("", "")
  | String c s' =>
      if name_char c
      then let '(n, r) := span s' in (String c n, r)
      else ("", s)
  end.

(** A name at the head of [s], taken as long as it can be. *)
Definition name (s : string) : option (string * string) :=
  match s with
  | String c _ => if name_start c then Some (span s) else None
  | "" => None
  end.

(** What follows a [$]: the name matched and the text after the match. *)
Definition reference (s : string) : option (string * string) :=
  match name s with
  | Some nr => Some nr
  | None =>
      match s with
      | String "{" s' =>
          match name s' with
          | Some (n, String "}" r) => Some (n, r)
          | _ => None
          end
      | _ => None
      end
  end.

(** [pattern.replace(re, f)]: matches are replaced left to right and the
    result of [f] is never scanned again.  [skip] counts the characters of
    the current match still to be passed over. *)
Fixpoint replace_go (f : string → string) (s : string) (skip : nat) : string :=
  match s with
  | "" => ""
  | String c s' =>
      match skip with
      | S k => replace_go f s' k
      | O =>
          if Ascii.eqb c "$" then
            match reference s' with
            | Some (n, r) =>
                f n +:+ replace_go f s' (String.length s' - String.length r)
            | None => String c (replace_go f s' 0)
            end
          else String c (replace_go f s' 0)
      end
  end.

Definition replace (f : string → string) (s : string) : string :=
  replace_go f s 0.

(** The shape of the text around a reference: a valid name, a text that
    goes on with a name character, a text without [$]. *)
Fixpoint all_name_chars (s : string) : bool :=
  match s with
  | "" => true
  | String c s' => name_char c && all_name_chars s'
  end.

Definition valid_name (n : string) : bool :=
  match n with
  | String c r => name_start c && all_name_chars r
  | "" => false
  end.

Definition continues (s : string) : bool :=
  match s with
  | String c _ => name_char c
  | "" => false
  end.

Fixpoint no_dollar (s : string) : bool :=
  match s with
  | "" => true
  | String c s' => negb (Ascii.eqb c "$") && no_dollar s'
  end.

End Ref.

(** ** The executable locator *)

(** The name of the search-path variable: [Path] on Windows, [PATH]
    elsewhere. *)
Definition path_variable (s : State) : string :=
  if decide (platform s = "win32") then "Path" else "PATH".

(** Modelled from the spec: the default executable extensions of the
    locator (section 4.1). *)
Definition executable_extensions : list string := [".COM"; ".EXE"; ".BAT"; ".CMD"].

(** Modelled from the spec: the file names the locator tries in a
    directory, the tool's name and, on Windows, the name with each
    executable extension of the configured list, in that order. *)
Definition candidates_with (extensions : list string) (s : State) (tool : string)
    : list string :=
  if decide (platform s = "win32")
  then tool :: map (λ e, tool +:+ e) extensions
  else [tool].

Definition candidates : State → string → list string :=
  candidates_with executable_extensions.

(** Modelled from the spec: the directories the locator searches, those of
    the search-path variable cut at the path delimiter, in order. *)
Definition search_path (s : State) : option (list string) :=
  Js.split (path_delimiter s) <$> env s !! path_variable s.

(** Modelled from the spec: the locator's existence check; a path is a
    match when something can be seen there.  Nothing is run or opened. *)
Definition is_match (s : State) (p : string) : bool :=
  match seen s p with
  | Some _ => true
  | None => false
  end.

(** Modelled from the spec: every path the locator probes for a tool, in
    the order of the search. *)
Definition probes_with (extensions : list string) (s : State)
    (dirs : list string) (tool : string) : list string :=
  d ← dirs; (λ c, Path.join [d; c]) <$> candidates_with extensions s tool.

Definition probes : State → list string → string → list string :=
  probes_with executable_extensions.

(** Modelled from the spec: [lookPath] of [./lookPath], which is imported by
    the class but is not among the sources.  Section 4.1: each directory of
    the search path is tried in order, on Windows with the executable
    extensions as well, those of the configured list or else the default
    ones; the first match is the answer; there is none when the variable is
    unset or no directory has a match; the file system is only read.
    Names are compared as they are written, and paths are POSIX paths:
    the rules of section 4.1 for the names of a Windows directory are not
    covered, and what is proved of the locator is stated for the other
    platforms. *)
Definition lookPath (tool : string) (extensions : option (list string))
    : M (option string) :=
  λ s, (Ok (dirs ← search_path s;
            List.find (is_match s)
              (probes_with (default executable_extensions extensions) s dirs tool)),
        s).

(** ** The agent *)

(** The abstract members of [BuildAgentBase] that are plain data. *)
Class BuildAgent := {
  agentName : string;
  sourceDirVariable : string;
  tempDirVariable : string;
  cacheDirVariable : string;
  (* a host names its variables after no member of [Object.prototype] *)
  variables_own :
    Forall (λ name, name ∉ Js.object_members)
           [sourceDirVariable; tempDirVariable; cacheDirVariable]
}.

(** Modelled from the spec: [ExecResult] of [./models], which is not among
    the sources.  Section 3: a code (an integer or [null]), an error or
    [null], and the two captured streams.  The code and the streams are
    given the values JavaScript can put there. *)
Record ExecResult := mkExecResult {
  code : Code;
  error : option JsError;
  stderr : option string;
  stdout : option string
}.

Section BuildAgentBase.

Context `{agent : BuildAgent}.

(** [semver.clean], from the [semver] package. *)
Variable semver_clean : string → option string.

(** The four logging members are abstract in the class; every host writes
    the message to its log. *)
Definition debug (msg : string) : M unit := modify (add_log LDebug msg).
Definition info (msg : string) : M unit := modify (add_log LInfo msg).
Definition warn (msg : string) : M unit := modify (add_log LWarn msg).
Definition error_ (msg : string) : M unit := modify (add_log LError msg).

(** [process.env[name]] inside a template string or a concatenation. *)
Definition env_text (v : option string) : string := default "undefined" v.

(** An inherited member is truthy and has no [trim]: calling it throws. *)
Definition getVariable (name : string) : M string :=
  let! s := get in
  match process_env s name with
  | EnvMember =>
      throw (not_a_function
               ("(process.env[name] || " +:+ String "034" (String "034" "")
                +:+ ").trim"))
  | found =>
      let text := match found with EnvString v => v | _ => "" end in
      let value := Js.trim (Js.or_else text "") in
      run debug ("getVariable - " +:+ name +:+ ": " +:+ value) then
      ret (Js.trim value)
  end.

Definition getVariableAsPath (name : string) : M string :=
  let! v := getVariable name in
  path_resolve (Path.normalize v).

Definition sourceDir : M string :=
  let! p := getVariableAsPath sourceDirVariable in
  ret (Js.backslashes_to_slashes p).

Definition tempDir : M string := getVariableAsPath tempDirVariable.

Definition cacheDir : M string := getVariableAsPath cacheDirVariable.

Definition addPath (inputPath : string) : M unit :=
  let! s := get in
  let envName := if decide (platform s = "win32") then "Path" else "PATH" in
  let newPath := inputPath +:+ path_delimiter s +:+ env_text (env s !! envName) in
  run debug ("new Path: " +:+ newPath) then
  run modify (set_env (insert envName newPath)) then
  run modify (set_env (insert "Path" newPath)) then
  let! s' := get in
  info ("Updated PATH: " +:+ env_text (env s' !! envName)).

Definition getInput (input : string) (required : bool) : M string :=
  let inputProp := Js.toUpperCase (Js.spaces_to_underscores input) in
  let! val := getVariable ("INPUT_" +:+ inputProp) in
  if required && Js.falsy val
  then throw (Error ("Input required and not supplied: " +:+ inputProp))
  else ret (Js.trim val).

Definition getBooleanInput (input : string) (required : bool) : M bool :=
  let! inputValue := getInput input required in
  ret (bool_decide (Js.toLowerCase (Js.or_else inputValue "false") = "true")).

Definition getDelimitedInput (input delimiter : string) (required : bool)
    : M (list string) :=
  let! v := getInput input required in
  ret (filter (λ x, Js.truthy x && Js.truthy (Js.trim x) = true)
              (Js.split delimiter v)).

Definition getListInput (input : string) (required : bool) : M (list string) :=
  getDelimitedInput input Js.LF required.

(** The name looked up is in upper case, so it is never the name of an
    inherited member: the variable is found or the value is [undefined]. *)
Definition getExpandedString (pattern : string) : M string :=
  let! s := get in
  let expanded :=
    Ref.replace (λ name, default "" (env s !! Js.toUpperCase name)) pattern in
  run debug ("getExpandedString - " +:+ pattern +:+ ": " +:+ expanded) then
  ret expanded.

Definition directoryExists (dir : string) : M bool :=
  try_catch
    (run fs_access dir then
     let! st := fs_stat dir in
     ret (Fs.is_dir st))
    (λ _, ret false).

Definition removeDirectory (dir : string) : M unit := fs_rm dir.

Definition fileExists (file : string) : M bool :=
  try_catch
    (run fs_access file then
     let! st := fs_stat file in
     ret (Fs.is_file st))
    (λ _, ret false).

(** [semver.clean(version) || version] *)
Definition clean_or_raw (version : string) : string :=
  Js.or_else (default "" (semver_clean version)) version.

Definition cacheToolDirectory (sourceDir tool version : string) : M string :=
  if Js.falsy tool then throw (Error "tool is a required parameter")
  else if Js.falsy version then throw (Error "version is a required parameter")
  else if Js.falsy sourceDir then throw (Error "sourceDir is a required parameter")
  else
    let! cacheRoot := cacheDir in
    if Js.falsy cacheRoot then
      run debug "cache root not set" then
      ret ""
    else
      let version := clean_or_raw version in
      let destPath := Path.join [cacheRoot; tool; version] in
      let! present := directoryExists destPath in
      run (if present then
             run debug ("Destination directory " +:+ destPath +:+ " already exists, removing") then
             removeDirectory destPath
           else ret tt) then
      run debug ("Copying " +:+ sourceDir +:+ " to " +:+ destPath) then
      run fs_mkdir destPath then
      run fs_cp sourceDir destPath then
      run debug ("Caching " +:+ tool +:+ "@" +:+ version +:+ " from " +:+ sourceDir) then
      ret destPath.

Definition findLocalTool (toolName versionSpec : string) : M (option string) :=
  if Js.falsy toolName then throw (Error "toolName is a required parameter")
  else if Js.falsy versionSpec then throw (Error "versionSpec is a required parameter")
  else
    let! cacheRoot := cacheDir in
    if Js.falsy cacheRoot then
      run debug "cache root not set" then
      ret None
    else
      let versionSpec := clean_or_raw versionSpec in
      run info ("Looking for local tool " +:+ toolName +:+ "@" +:+ versionSpec) then
      let toolPath := Path.join [cacheRoot; toolName; versionSpec] in
      let! present := directoryExists toolPath in
      if negb present then
        run info ("Directory " +:+ toolPath +:+ " not found") then
        ret None
      else
        run info ("Found tool " +:+ toolName +:+ "@" +:+ versionSpec +:+ " at " +:+ toolPath) then
        ret (Some toolPath).

Definition exec (cmd : string) (args : list string) : M ExecResult :=
  try_catch
    (let! r := child_process_exec (cmd +:+ " " +:+ Js.join " " args) in
     ret (mkExecResult (CNum 0) None (Some r.2) (Some r.1)))
    (λ e, ret (mkExecResult (err_code e) (Some e) (err_stderr e) (err_stdout e))).

Definition which (tool : string) (_check : bool) : M string :=
  run debug ("looking for tool '" +:+ tool +:+ "' in PATH") then
  let! toolPath := lookPath tool None in
  match toolPath with
  | Some p =>
      if Js.truthy p then
        let! resolved := path_resolve p in
        run debug ("found tool '" +:+ tool +:+ "' in PATH: " +:+ resolved) then
        ret resolved
      else throw (Error ("Unable to locate executable file: " +:+ tool))
  | None => throw (Error ("Unable to locate executable file: " +:+ tool))
  end.

End BuildAgentBase.

(** ** A sample host *)

Module Sample.

Definition host_variables_own :
  Forall (λ name, name ∉ Js.object_members)
         ["HOST_SOURCES"; "HOST_TEMP"; "HOST_TOOL_CACHE"] :=
  ltac:(repeat (apply Forall_cons_2;
                  [apply (bool_decide_unpack _); vm_compute; exact I|]);
        apply Forall_nil_2).

Definition agent : BuildAgent := {|
  agentName := "Sample";
  sourceDirVariable := "HOST_SOURCES";
  tempDirVariable := "HOST_TEMP";
  cacheDirVariable := "HOST_TOOL_CACHE";
  variables_own := host_variables_own
|}.

(** A cleaner that knows plain [MAJOR.MINOR.PATCH] versions only: white
    space around the version and [=] and [v] in front of it are dropped,
    and the three numbers are written without leading zeros. *)
Fixpoint all_digits (s : string) : bool :=
  match s with
  | "" => true
  | String c s' => Ref.is_digit c && all_digits s'
  end.

Definition number (s : string) : bool :=
  match s with
  | "" => false
  | String "0" r => Js.falsy r
  | _ => all_digits s
  end.

Fixpoint drop_marks (s : string) : string :=
  match s with
  | String c r =>
      if Ascii.eqb c "=" || Ascii.eqb c "v" then drop_marks r else s
  | "" => ""
  end.

Definition clean (v : string) : option string :=
  let t := drop_marks (Js.trim v) in
  match Js.split "." t with
  | [a; b; c] => if number a && number b && number c then Some t else None
  | _ => None
  end.

Definition no_fault : list string → option string := λ _, None.

Definition quiet : string → ChildOutcome := λ _, Exited 0 "" "".

Definition files : Fs.Tree :=
  list_to_map [
    (["work"], Fs.EDir);
    (["work"; "dl"], Fs.EDir);
    (["work"; "dl"; "tool.dll"], Fs.EFile "binary");
    (["work"; "dl"; "lib"], Fs.EDir);
    (["work"; "dl"; "lib"; "a.txt"], Fs.EFile "a");
    (["opt"], Fs.EDir);
    (["opt"; "cache"], Fs.EDir);
    (["usr"], Fs.EDir);
    (["usr"; "bin"], Fs.EDir);
    (["usr"; "bin"; "git"], Fs.EFile "elf");
    (["new"], Fs.EDir);
    (["new"; "bin"], Fs.EDir);
    (["new"; "bin"; "grm"], Fs.EFile "elf")
  ].

Definition state (e : gmap string string) : State := {|
  env := e;
  platform := "linux";
  cwd := ["work"];
  tree := files;
  fault := no_fault;
  child := quiet;
  log := [];
  calls := []
|}.

End Sample.

(** ** Vocabulary of the statements *)

(** The variable an input is read from, and its value. *)
Definition input_prop (input : string) : string :=
  Js.toUpperCase (Js.spaces_to_underscores input).

Definition input_value (s : State) (input : string) : string :=
  default "" (env s !! ("INPUT_" +:+ input_prop input)).

(** The value substituted for a reference to [name]. *)
Definition env_value (s : State) (name : string) : string :=
  default "" (env s !! Js.toUpperCase name).

(** Two states of one host: the same environment, working directory and
    faulty paths. *)
Definition same_host (s s' : State) : Prop :=
  env s' = env s ∧ cwd s' = cwd s ∧ fault s' = fault s.

(** A text without the character [d]. *)
Fixpoint no_char (d : ascii) (s : string) : bool :=
  match s with
  | "" => true
  | String c s' => negb (Ascii.eqb c d) && no_char d s'
  end.

(** A segment of a path in normal form: not empty, neither [.] nor [..],
    and without a slash. *)
Definition normal_segment (x : string) : bool :=
  negb (bool_decide (x = "" ∨ x = "." ∨ x = "..")) && no_char "/" x.

(** The sample host with its cache directory set, before and after the
    sample tool was cached. *)
Definition sample_host : State :=
  Sample.state {[ "HOST_TOOL_CACHE" := "/opt/cache" ]}.

Definition sample_cached : State :=
  (cacheToolDirectory (agent := Sample.agent) Sample.clean
     "dl" "tool" "1.2.3" sample_host).2.

(** * Properties *)

(** ** The platform model on samples *)

Example split_sample : Js.split ":" "/a:/b::c" = ["/a"; "/b"; ""; "c"].
Proof. reflexivity. Qed.

Example split_long_separator : Js.split "ab" "xabyabab" = ["x"; "y"; ""; ""].
Proof. reflexivity. Qed.

Example trim_sample : Js.trim ("  a b " +:+ Js.LF) = "a b".
Proof. reflexivity. Qed.

Example upper_sample : Js.toUpperCase "my input_1" = "MY INPUT_1".
Proof. reflexivity. Qed.

Example normalize_sample : Path.normalize "/a//b/./c/../d/" = "/a/b/d/".
Proof. reflexivity. Qed.

Example normalize_empty : Path.normalize "" = ".".
Proof. reflexivity. Qed.

Example normalize_relative : Path.normalize "../../x/.." = "../..".
Proof. reflexivity. Qed.

Example join_sample : Path.join ["/cache"; "tool"; "1.2.3"] = "/cache/tool/1.2.3".
Proof. reflexivity. Qed.

Example join_dotdot : Path.join ["/cache"; ".."; ".."; "x"] = "/x".
Proof. reflexivity. Qed.

Example normalize_dot_slash : Path.normalize "./" = "./".
Proof. reflexivity. Qed.

Example normalize_above : Path.normalize "a/b/../../.." = "..".
Proof. reflexivity. Qed.

Example join_trailing : Path.join ["/cache"; ""; "tool"; "1.2.3/"] = "/cache/tool/1.2.3/".
Proof. reflexivity. Qed.

Example resolve_empty : Path.resolve "/home/runner/work" [""] = "/home/runner/work".
Proof. reflexivity. Qed.

Example resolve_dot : Path.resolve "/home/runner/work" ["."] = "/home/runner/work".
Proof. reflexivity. Qed.

Example resolve_relative : Path.resolve "/home/runner" ["a/../b"; "c"] = "/home/runner/b/c".
Proof. reflexivity. Qed.

Example resolve_absolute : Path.resolve "/home/runner" ["x"; "/opt//t/"; "bin"] = "/opt/t/bin".
Proof. reflexivity. Qed.

(** ** Strings *)

Lemma app_cons c a b : String c a +:+ b = String c (a +:+ b).
Proof. done. Qed.

Lemma app_empty_l a : "" +:+ a = a.
Proof. done. Qed.

Lemma ws_head_length s r :
  Js.ws_head s = Some r → String.length r < String.length s.
Proof.
  unfold Js.ws_head. destruct s as [|a [|b [|c s]]]; [done|..].
  - destruct (Ascii.is_space a); [|done]. intros [= <-]. simpl. lia.
  - destruct (Ascii.is_space a); [intros [= <-]; simpl; lia|].
    destruct (_ && _); [|done]. intros [= <-]. simpl. lia.
  - destruct (Ascii.is_space a); [intros [= <-]; simpl; lia|].
    destruct (_ && _); [intros [= <-]; simpl; lia|].
    destruct (Js.ws3 _ _ _); [|done]. intros [= <-]. simpl. lia.
Qed.

Lemma ws_head_app s r u :
  Js.ws_head s = Some r → Js.ws_head (s +:+ u) = Some (r +:+ u).
Proof.
  unfold Js.ws_head. destruct s as [|a [|b [|c s]]]; [done|..];
    rewrite ?app_cons.
  - destruct (Ascii.is_space a); [|done]. by intros [= <-].
  - destruct (Ascii.is_space a); [by intros [= <-]|].
    destruct (_ && _); [|done]. by intros [= <-].
  - destruct (Ascii.is_space a); [by intros [= <-]|].
    destruct (_ && _); [by intros [= <-]|].
    destruct (Js.ws3 _ _ _); [|done]. by intros [= <-].
Qed.

Lemma trimStart_go_enough n m s :
  String.length s ≤ n → String.length s ≤ m →
  Js.trimStart_go n s = Js.trimStart_go m s.
Proof.
  revert m s. induction n as [|n IH]; intros m s Hn Hm.
  - destruct s; [|simpl in Hn; lia]. by destruct m.
  - destruct m as [|m]; [destruct s; [done|simpl in Hm; lia]|].
    simpl. destruct (Js.ws_head s) as [r|] eqn:E; [|done].
    apply ws_head_length in E. apply IH; lia.
Qed.

Lemma trimStart_eq s :
  Js.trimStart s =
    match Js.ws_head s with Some r => Js.trimStart r | None => s end.
Proof.
  unfold Js.trimStart. destruct s as [|a s]; [done|].
  change (String.length (String a s)) with (S (String.length s)).
  cbn [Js.trimStart_go]. destruct (Js.ws_head (String a s)) as [r|] eqn:E; [|done].
  apply ws_head_length in E. simpl in E. apply trimStart_go_enough; lia.
Qed.

(** Induction along the white space at the head of a string. *)
Lemma ws_ind (P : string → Prop) :
  (∀ s, Js.ws_head s = None → P s) →
  (∀ s r, Js.ws_head s = Some r → P r → P s) →
  ∀ s, P s.
Proof.
  intros Hnone Hsome s.
  remember (String.length s) as n eqn:Hn. revert s Hn.
  induction n as [n IH] using lt_wf_ind. intros s ->.
  destruct (Js.ws_head s) as [r|] eqn:E; [|by apply Hnone].
  apply (Hsome _ _ E). apply (IH (String.length r)); [|done].
  by apply ws_head_length.
Qed.

Lemma ws_head_trimStart s : Js.ws_head (Js.trimStart s) = None.
Proof.
  induction s as [s E|s r E IH] using ws_ind; rewrite trimStart_eq, E; done.
Qed.

Lemma trimStart_fixed s : Js.ws_head s = None → Js.trimStart s = s.
Proof. intros E. by rewrite trimStart_eq, E. Qed.

Lemma trimStart_idem s : Js.trimStart (Js.trimStart s) = Js.trimStart s.
Proof. apply trimStart_fixed, ws_head_trimStart. Qed.

Lemma trimStart_blank_app a b :
  Js.blank a = true → Js.trimStart (a +:+ b) = Js.trimStart b.
Proof.
  unfold Js.blank.
  induction a as [s E|s r E IH] using ws_ind; intros H.
  - rewrite trimStart_fixed in H by done. by destruct s.
  - rewrite trimStart_eq, E in H.
    rewrite trimStart_eq, (ws_head_app _ _ _ E). by apply IH.
Qed.

Lemma trimEnd_cut s : ∃ u, s = Js.trimEnd s +:+ u ∧ Js.blank u = true.
Proof.
  induction s as [|c s (u & IH & Hu)]; [by exists ""|].
  cbn [Js.trimEnd]. destruct (Js.blank (String c s)) eqn:B.
  - by exists (String c s).
  - exists u. by rewrite app_cons, <- IH.
Qed.

Lemma blank_cons_trimEnd c s :
  Js.blank (String c (Js.trimEnd s)) = true → Js.blank (String c s) = true.
Proof.
  destruct (trimEnd_cut s) as (u & Hs & Hu). intros B.
  rewrite Hs, <- app_cons. unfold Js.blank.
  by rewrite trimStart_blank_app.
Qed.

Lemma trimEnd_idem s : Js.trimEnd (Js.trimEnd s) = Js.trimEnd s.
Proof.
  induction s as [|c s IH]; [done|]. cbn [Js.trimEnd].
  destruct (Js.blank (String c s)) eqn:B; [done|]. cbn [Js.trimEnd].
  destruct (Js.blank (String c (Js.trimEnd s))) eqn:B'.
  - apply blank_cons_trimEnd in B'. congruence.
  - by rewrite IH.
Qed.

Lemma ws_head_trimEnd s : Js.ws_head s = None → Js.ws_head (Js.trimEnd s) = None.
Proof.
  intros E. destruct (trimEnd_cut s) as (u & Hs & _).
  destruct (Js.ws_head (Js.trimEnd s)) as [r|] eqn:E'; [|done].
  apply (ws_head_app _ _ u) in E'. rewrite <- Hs in E'. congruence.
Qed.

Lemma trim_idem s : Js.trim (Js.trim s) = Js.trim s.
Proof.
  unfold Js.trim.
  rewrite (trimStart_fixed (Js.trimEnd _))
    by apply ws_head_trimEnd, ws_head_trimStart.
  apply trimEnd_idem.
Qed.

Lemma falsy_trimEnd s : Js.falsy (Js.trimEnd s) = Js.blank s.
Proof.
  destruct s as [|c s]; [done|]. cbn [Js.trimEnd].
  by destruct (Js.blank (String c s)).
Qed.

Lemma blank_trimStart s : Js.blank (Js.trimStart s) = Js.blank s.
Proof. unfold Js.blank. by rewrite trimStart_idem. Qed.

Lemma falsy_trim s : Js.falsy (Js.trim s) = Js.blank s.
Proof. unfold Js.trim. by rewrite falsy_trimEnd, blank_trimStart. Qed.

Example trim_unicode :
  Js.trim (String "194" (String "160" (" a b" +:+ String "226" (String "128" (String "168" "")))))
  = "a b".
Proof. reflexivity. Qed.

Lemma falsy_empty s : Js.falsy s = true ↔ s = "".
Proof. by destruct s. Qed.

Lemma or_else_empty s : Js.or_else s "" = s.
Proof. by destruct s. Qed.

Lemma kept_entry x :
  Js.truthy x && Js.truthy (Js.trim x) = negb (Js.blank x).
Proof.
  unfold Js.truthy. rewrite falsy_trim. by destruct x.
Qed.

(** ** Reading inputs *)

Lemma process_env_own name s :
  name ∉ Js.object_members →
  process_env s name = from_option EnvString EnvUndefined (env s !! name).
Proof.
  intros H. unfold process_env. destruct (env s !! name); [done|].
  by rewrite bool_decide_eq_false_2.
Qed.

Lemma getVariable_run name s :
  name ∉ Js.object_members →
  let v := Js.trim (default "" (env s !! name)) in
  getVariable name s = (Ok v, add_log LDebug ("getVariable - " +:+ name +:+ ": " +:+ v) s).
Proof.
  intros H. unfold getVariable, bind, get. cbv beta iota.
  rewrite process_env_own by done.
  destruct (env s !! name) as [v|]; unfold debug, modify, ret; simpl;
    by rewrite ?or_else_empty, trim_idem.
Qed.

Lemma input_name_own x : "INPUT_" +:+ x ∉ Js.object_members.
Proof.
  intros H. unfold Js.object_members in H.
  repeat (apply elem_of_cons in H as [H|H]; [discriminate H|]).
  by apply elem_of_nil in H.
Qed.

Lemma variables_are_own `{agent : BuildAgent} :
  (sourceDirVariable ∉ Js.object_members)
  ∧ (tempDirVariable ∉ Js.object_members)
  ∧ (cacheDirVariable ∉ Js.object_members).
Proof.
  pose proof variables_own as H.
  apply Forall_cons in H as [H1 H]. apply Forall_cons in H as [H2 H].
  by apply Forall_cons in H as [H3 _].
Qed.

Lemma getInput_run input required s :
  let v := input_value s input in
  let s' := add_log LDebug
    ("getVariable - " +:+ ("INPUT_" +:+ input_prop input) +:+ ": " +:+ Js.trim v) s in
  getInput input required s =
    if required && Js.blank v
    then (Throw (Error ("Input required and not supplied: " +:+ input_prop input)), s')
    else (Ok (Js.trim v), s').
Proof.
  unfold getInput, bind. fold (input_prop input).
  rewrite getVariable_run by apply input_name_own. fold (input_value s input).
  rewrite falsy_trim, trim_idem.
  by destruct (required && Js.blank (input_value s input)).
Qed.

(** C3.  A required input whose variable [INPUT_<KEY>] (the key with spaces
    turned into underscores, in upper case) is unset, empty or blank makes
    [getInput] throw "Input required and not supplied: <KEY>"; in every
    other case, required or not, [getInput] returns the value of the
    variable, trimmed. *)
Theorem C3_getInput_required_or_trimmed input s :
  (getInput input true s).1 =
    (if Js.blank (input_value s input)
     then Throw (Error ("Input required and not supplied: "
                        +:+ Js.toUpperCase (Js.spaces_to_underscores input)))
     else Ok (Js.trim (input_value s input)))
  ∧ (getInput input false s).1 = Ok (Js.trim (input_value s input))
  ∧ Js.blank (input_value s input) = Js.falsy (Js.trim (input_value s input)).
Proof.
  rewrite !getInput_run, falsy_trim. simpl.
  by destruct (Js.blank (input_value s input)).
Qed.

Lemma getDelimitedInput_run input delimiter required s :
  (getDelimitedInput input delimiter required s).1 =
    if required && Js.blank (input_value s input)
    then Throw (Error ("Input required and not supplied: " +:+ input_prop input))
    else Ok (filter (λ x, Js.blank x = false)
                    (Js.split delimiter (Js.trim (input_value s input)))).
Proof.
  unfold getDelimitedInput, bind. rewrite getInput_run. simpl.
  destruct (required && Js.blank (input_value s input)); simpl; [done|].
  f_equal. apply list_filter_iff. intros x.
  rewrite kept_entry. by destruct (Js.blank x).
Qed.

(** C9.  [getListInput] is [getDelimitedInput] with the line feed as
    delimiter.  For a delimiter that is not empty and unless the input is
    required and blank, the list returned is the trimmed value of the
    input, split at the delimiter, without its blank pieces (the empty ones
    and those made of white space only), the others as they are and in
    their order; on the value made of the lines a, b, an empty line and c
    it is [a; b; c]. *)
Theorem C9_getListInput input d ds required s :
  getListInput input required s = getDelimitedInput input Js.LF required s
  ∧ (getDelimitedInput input (String d ds) required s).1 =
      (if required && Js.blank (input_value s input)
       then Throw (Error ("Input required and not supplied: " +:+ input_prop input))
       else Ok (filter (λ x, Js.blank x = false)
                       (Js.split (String d ds) (Js.trim (input_value s input)))))
  ∧ filter (λ x, Js.blank x = false)
           (Js.split (String d ds) (Js.trim (input_value s input)))
      `sublist_of` Js.split (String d ds) (Js.trim (input_value s input))
  ∧ (getListInput input required
       (set_env (insert ("INPUT_" +:+ input_prop input)
                        ("a" +:+ Js.LF +:+ "b" +:+ Js.LF +:+ Js.LF +:+ "c")) s)).1
      = Ok ["a"; "b"; "c"].
Proof.
  split; [done|]. split; [apply getDelimitedInput_run|].
  split; [apply sublist_filter|].
  unfold getListInput. rewrite getDelimitedInput_run.
  unfold input_value, set_env. simpl. rewrite lookup_insert_eq. simpl.
  by rewrite andb_false_r.
Qed.

(** White space beyond ASCII counts as white space: a required input that
    holds a no-break space only is not supplied, and a line that holds one
    only is dropped from a list. *)
Example inputs_and_the_no_break_space :
  let nbsp := String "194" (String "160" "") in
  (getInput "key" true (Sample.state {[ "INPUT_KEY" := nbsp ]})).1
  = Throw (Error "Input required and not supplied: KEY")
  ∧ (getListInput "key" false
       (Sample.state
          {[ "INPUT_KEY" := "a" +:+ Js.LF +:+ nbsp +:+ Js.LF +:+ "b" ]})).1
    = Ok ["a"; "b"]
  ∧ (getBooleanInput "key" false
       (Sample.state {[ "INPUT_KEY" := "true" +:+ nbsp ]})).1
    = Ok true.
Proof. repeat split; vm_compute; reflexivity. Qed.

(** ** Arguments of the tool cache *)

Section Cache.

Context `{agent : BuildAgent}.
Variable semver_clean : string → option string.

(** C6.  [cacheToolDirectory] throws "tool is a required parameter" for an
    empty tool, else "version is a required parameter" for an empty
    version, else "sourceDir is a required parameter" for an empty source
    directory; [findLocalTool] throws "toolName is a required parameter"
    and "versionSpec is a required parameter" likewise.  In each case the
    state is left as it was: no variable has been read, nothing was logged
    and no call was made to the file system. *)
Theorem C6_required_parameters s sourceDir version c t c' v :
  cacheToolDirectory semver_clean sourceDir "" version s
    = (Throw (Error "tool is a required parameter"), s)
  ∧ cacheToolDirectory semver_clean sourceDir (String c t) "" s
    = (Throw (Error "version is a required parameter"), s)
  ∧ cacheToolDirectory semver_clean "" (String c t) (String c' v) s
    = (Throw (Error "sourceDir is a required parameter"), s)
  ∧ findLocalTool semver_clean "" version s
    = (Throw (Error "toolName is a required parameter"), s)
  ∧ findLocalTool semver_clean (String c t) "" s
    = (Throw (Error "versionSpec is a required parameter"), s).
Proof. by repeat split. Qed.

End Cache.

(** ** Running a command *)



(** ** Probing the file system *)

Lemma locate_same s s' p :
  tree s' = tree s → cwd s' = cwd s → locate s' p = locate s p.
Proof.
  intros T C. unfold locate, cwd_key, key_of, process_cwd. by rewrite T, C.
Qed.

Lemma fs_enter_run c p s :
  fs_enter c p s =
    (match locate s p with
     | Fs.Here k e =>
         match fault s k with
         | Some errno => Throw (fs_error errno)
         | None => Ok (k, e)
         end
     | Fs.NoEntry => Throw (fs_error "ENOENT")
     | Fs.NotDirectory => Throw (fs_error "ENOTDIR")
     end, add_call c s).
Proof.
  unfold fs_enter, bind, modify, get. cbv beta iota.
  rewrite (locate_same s (add_call c s)) by done.
  change (fault (add_call c s)) with (fault s).
  destruct (locate s p) as [k e| |]; [|done..].
  by destruct (fault s k).
Qed.

Lemma directoryExists_run dir s :
  ∃ s', directoryExists dir s = (Ok (bool_decide (seen s dir = Some Fs.EDir)), s')
        ∧ tree s' = tree s ∧ env s' = env s ∧ cwd s' = cwd s
        ∧ fault s' = fault s ∧ log s' = log s ∧ platform s' = platform s
        ∧ child s' = child s.
Proof.
  unfold directoryExists, try_catch, fs_access, fs_stat, bind, ret.
  rewrite fs_enter_run. unfold seen.
  destruct (locate s dir) as [k e| |] eqn:L; [|eauto 10..].
  destruct (fault s k) eqn:F; [eauto 10|].
  rewrite fs_enter_run, (locate_same s (add_call _ s)), L by done.
  change (fault (add_call _ s)) with (fault s). rewrite F.
  destruct e; simpl; eauto 10.
Qed.

Lemma fileExists_run file s :
  ∃ s', fileExists file s
          = (Ok (match seen s file with Some (Fs.EFile _) => true | _ => false end), s')
        ∧ tree s' = tree s.
Proof.
  unfold fileExists, try_catch, fs_access, fs_stat, bind, ret.
  rewrite fs_enter_run. unfold seen.
  destruct (locate s file) as [k e| |] eqn:L; [|eauto 10..].
  destruct (fault s k) eqn:F; [eauto 10|].
  rewrite fs_enter_run, (locate_same s (add_call _ s)), L by done.
  change (fault (add_call _ s)) with (fault s). rewrite F.
  destruct e; simpl; eauto 10.
Qed.

(** C10.  [directoryExists] and [fileExists] always return a boolean, never
    throw, and never change the file system.  On a platform other than
    Windows the answer is [true] exactly when the system finds an entry
    under the path, no call on it fails, and the entry is a directory, for
    [directoryExists], or a file, for [fileExists]; a path that leads
    nowhere (the empty path, a missing name, a missing directory followed
    by [..]), that runs through a file (a file followed by a slash), or on
    which [access] or [stat] fails, gives [false]. *)
Theorem C10_existence_checks_never_throw p s :
  (∃ b, (directoryExists p s).1 = Ok b)
  ∧ (∃ b, (fileExists p s).1 = Ok b)
  ∧ tree (directoryExists p s).2 = tree s
  ∧ tree (fileExists p s).2 = tree s
  ∧ (platform s ≠ "win32" →
     (directoryExists p s).1 = Ok (bool_decide (seen s p = Some Fs.EDir))
     ∧ (fileExists p s).1 =
         Ok (match seen s p with Some (Fs.EFile _) => true | _ => false end)
     ∧ (seen s p = None →
        (directoryExists p s).1 = Ok false ∧ (fileExists p s).1 = Ok false)).
Proof.
  destruct (directoryExists_run p s) as (s1 & -> & T1 & _).
  destruct (fileExists_run p s) as (s2 & -> & T2).
  split; [by eexists|]. split; [by eexists|]. split; [done|]. split; [done|].
  intros _. split; [done|]. split; [done|]. by intros ->.
Qed.

Lemma C10_existence_checks_never_throw_witness :
  let s := Sample.state ∅ in
  platform s ≠ "win32"
  ∧ (directoryExists "dl" s).1 = Ok true
  ∧ (fileExists "dl/tool.dll" s).1 = Ok true
  ∧ (directoryExists "" s).1 = Ok false
  ∧ (fileExists "dl/tool.dll/" s).1 = Ok false
  ∧ (directoryExists "missing/.." s).1 = Ok false.
Proof.
  intros s.
  assert (platform s ≠ "win32") as Hp by discriminate.
  destruct (C10_existence_checks_never_throw "dl" s) as (_ & _ & _ & _ & H1).
  destruct (C10_existence_checks_never_throw "dl/tool.dll" s)
    as (_ & _ & _ & _ & H2).
  destruct (C10_existence_checks_never_throw "" s) as (_ & _ & _ & _ & H3).
  destruct (C10_existence_checks_never_throw "dl/tool.dll/" s)
    as (_ & _ & _ & _ & H4).
  destruct (C10_existence_checks_never_throw "missing/.." s)
    as (_ & _ & _ & _ & H5).
  split; [exact Hp|].
  split; [exact (proj1 (H1 Hp))|].
  split; [exact (proj1 (proj2 (H2 Hp)))|].
  split; [exact (proj1 (H3 Hp))|].
  split; [exact (proj1 (proj2 (H4 Hp)))|].
  exact (proj1 (H5 Hp)).
Defined.

(** ** Expanding references to variables *)

Lemma app_empty_r a : a +:+ "" = a.
Proof. induction a as [|c a IH]; [done|]. by rewrite app_cons, IH. Qed.

Lemma app_assoc_s a b c : (a +:+ b) +:+ c = a +:+ b +:+ c.
Proof. induction a as [|x a IH]; [done|]. by rewrite !app_cons, IH. Qed.

Lemma app_length_s a b : String.length (a +:+ b) = String.length a + String.length b.
Proof. induction a as [|x a IH]; [done|]. rewrite app_cons. simpl. by rewrite IH. Qed.

Lemma replace_go_skip f a s :
  Ref.replace_go f (a +:+ s) (String.length a) = Ref.replace_go f s 0.
Proof. induction a as [|c a IH]; [done|]. rewrite app_cons. simpl. apply IH. Qed.

Lemma replace_text f pre s :
  Ref.no_dollar pre = true →
  Ref.replace f (pre +:+ s) = pre +:+ Ref.replace f s.
Proof.
  unfold Ref.replace. induction pre as [|c pre IH]; [done|].
  simpl. intros [Hc Hpre]%andb_true_iff. rewrite !app_cons. simpl.
  destruct (Ascii.eqb c "$"); [done|]. by rewrite IH.
Qed.

Lemma span_name n rest :
  Ref.all_name_chars n = true → Ref.continues rest = false →
  Ref.span (n +:+ rest) = (n, rest).
Proof.
  intros Hn Hrest. induction n as [|c n IH].
  - rewrite app_empty_l. destruct rest as [|c r]; [done|].
    simpl in *. by rewrite Hrest.
  - simpl in Hn. apply andb_true_iff in Hn as [Hc Hn].
    rewrite app_cons. simpl. rewrite Hc, IH; done.
Qed.

Lemma name_of_valid n rest :
  Ref.valid_name n = true → Ref.continues rest = false →
  Ref.name (n +:+ rest) = Some (n, rest).
Proof.
  destruct n as [|c n]; [done|].
  intros Hv Hrest. simpl in Hv. apply andb_true_iff in Hv as [Hc Hn].
  rewrite app_cons. unfold Ref.name. rewrite Hc. f_equal.
  rewrite <- app_cons. apply span_name; [|done].
  simpl. unfold Ref.name_char. by rewrite Hc, Hn.
Qed.

Lemma reference_plain n rest :
  Ref.valid_name n = true → Ref.continues rest = false →
  Ref.reference (n +:+ rest) = Some (n, rest).
Proof. intros. unfold Ref.reference. by rewrite name_of_valid. Qed.

Lemma reference_braced n rest :
  Ref.valid_name n = true →
  Ref.reference ("{" +:+ n +:+ "}" +:+ rest) = Some (n, rest).
Proof.
  intros Hn. unfold Ref.reference.
  change ("{" +:+ n +:+ "}" +:+ rest) with (String "{" (n +:+ String "}" rest)).
  change (Ref.name (String "{" (n +:+ String "}" rest))) with (@None (string * string)).
  cbv iota beta. by rewrite (name_of_valid n (String "}" rest)).
Qed.

Lemma replace_reference f tail n rest :
  Ref.reference tail = Some (n, rest) →
  (∃ a, tail = a +:+ rest) →
  Ref.replace f ("$" +:+ tail) = f n +:+ Ref.replace f rest.
Proof.
  intros Href [a ->]. unfold Ref.replace.
  change ("$" +:+ a +:+ rest) with (String "$" (a +:+ rest)).
  simpl. rewrite Href. f_equal.
  rewrite app_length_s.
  replace (String.length a + String.length rest - String.length rest)
    with (String.length a) by lia.
  apply replace_go_skip.
Qed.

Lemma replace_no_reference f tail :
  Ref.reference tail = None →
  Ref.replace f ("$" +:+ tail) = "$" +:+ Ref.replace f tail.
Proof.
  intros Href. unfold Ref.replace.
  change ("$" +:+ tail) with (String "$" tail). simpl. by rewrite Href.
Qed.

Lemma getExpandedString_run pattern s :
  (getExpandedString pattern s).1 = Ok (Ref.replace (env_value s) pattern).
Proof. done. Qed.

(** C2, as the code has it.  [getExpandedString] replaces a reference
    [$NAME] or [${NAME}], where NAME is a letter or an underscore followed
    by letters, digits and underscores, taken as long as it can be, by the
    value of the variable named NAME in upper case, and by nothing when
    that variable is unset.  A [$] that starts no such reference stays,
    with what follows it: [${}] is left as it is.  Text without [$] is
    kept, and a value put in is not expanded again: the expansion goes on
    after the reference only. *)
Theorem C2_getExpandedString_references s pre n rest rest' tail :
  Ref.no_dollar pre = true →
  Ref.valid_name n = true →
  Ref.continues rest = false →
  Ref.reference tail = None →
  ∃ r r' t,
    (getExpandedString rest s).1 = Ok r
    ∧ (getExpandedString rest' s).1 = Ok r'
    ∧ (getExpandedString tail s).1 = Ok t
    ∧ (getExpandedString (pre +:+ "$" +:+ n +:+ rest) s).1
        = Ok (pre +:+ default "" (env s !! Js.toUpperCase n) +:+ r)
    ∧ (getExpandedString (pre +:+ "${" +:+ n +:+ "}" +:+ rest') s).1
        = Ok (pre +:+ default "" (env s !! Js.toUpperCase n) +:+ r')
    ∧ (getExpandedString (pre +:+ "$" +:+ tail) s).1 = Ok (pre +:+ "$" +:+ t)
    ∧ (getExpandedString (pre +:+ "${}" +:+ rest') s).1 = Ok (pre +:+ "${}" +:+ r')
    ∧ (getExpandedString pre s).1 = Ok pre.
Proof.
  intros Hpre Hn Hrest Htail.
  exists (Ref.replace (env_value s) rest), (Ref.replace (env_value s) rest'),
    (Ref.replace (env_value s) tail).
  rewrite !getExpandedString_run.
  change (default "" (env s !! Js.toUpperCase n)) with (env_value s n).
  repeat split; f_equal.
  - rewrite replace_text by done. f_equal.
    apply (replace_reference _ (n +:+ rest)); [by apply reference_plain|eauto].
  - rewrite replace_text by done. f_equal.
    apply (replace_reference _ ("{" +:+ n +:+ "}" +:+ rest')).
    + by apply reference_braced.
    + exists ("{" +:+ n +:+ "}"). by rewrite !app_assoc_s.
  - rewrite replace_text by done. f_equal. by apply replace_no_reference.
  - by rewrite replace_text.
  - rewrite <- (app_empty_r pre) at 1. rewrite replace_text by done.
    by rewrite app_empty_r.
Qed.

Lemma C2_getExpandedString_references_witness :
  let s := Sample.state {[ "HOME" := "/h"; "USER" := "u" ]} in
  Ref.no_dollar "cd " = true
  ∧ Ref.valid_name "Home" = true
  ∧ Ref.continues "/x" = false
  ∧ Ref.reference "{}" = None
  ∧ ∃ r r' t,
      (getExpandedString "/x" s).1 = Ok r
      ∧ (getExpandedString "y" s).1 = Ok r'
      ∧ (getExpandedString "{}" s).1 = Ok t
      ∧ (getExpandedString "cd $Home/x" s).1
          = Ok ("cd " +:+ default "" (env s !! Js.toUpperCase "Home") +:+ r)
      ∧ (getExpandedString "cd ${Home}y" s).1
          = Ok ("cd " +:+ default "" (env s !! Js.toUpperCase "Home") +:+ r')
      ∧ (getExpandedString "cd ${}" s).1 = Ok ("cd " +:+ "$" +:+ t)
      ∧ (getExpandedString "cd ${}y" s).1 = Ok ("cd " +:+ "${}" +:+ r')
      ∧ (getExpandedString "cd " s).1 = Ok "cd ".
Proof.
  intros s. repeat (split; [reflexivity|]).
  apply (C2_getExpandedString_references s "cd " "Home" "/x" "y" "{}");
    reflexivity.
Defined.

(** The malformed reference [${}] is not replaced by the empty string. *)
Lemma C2_malformed_reference_is_kept :
  (getExpandedString "a${}b" (Sample.state ∅)).1 = Ok "a${}b"
  ∧ (getExpandedString "a${}b" (Sample.state ∅)).1 ≠ Ok "ab".
Proof. split; [reflexivity|discriminate]. Qed.

Example expansion_of_the_specification :
  (getExpandedString "$HOME/${USER}/x"
     (Sample.state {[ "HOME" := "/h"; "USER" := "u" ]})).1 = Ok "/h/u/x".
Proof. reflexivity. Qed.

Example expansion_is_not_repeated :
  (getExpandedString "${a}-$b"
     (Sample.state {[ "A" := "$B"; "B" := "${A}" ]})).1 = Ok "$B-${A}".
Proof. reflexivity. Qed.

(** ** Paths are absolute once resolved *)

Lemma resolve_is_absolute s p :
  Path.isAbsolute (Path.resolve (process_cwd s) [p]) = true.
Proof.
  unfold Path.resolve, process_cwd. simpl.
  destruct p as [|c p]; simpl; [done|].
  destruct (Path.isAbsolute (String c p)); done.
Qed.

Lemma absolute_is_truthy p : Path.isAbsolute p = true → Js.falsy p = false.
Proof. by destruct p. Qed.

Lemma normalize_is_truthy p : Js.falsy (Path.normalize p) = false.
Proof.
  unfold Path.normalize. destruct (Js.falsy p); [done|].
  destruct (Js.falsy (Path.normalizeString _ _)) eqn:E.
  - by destruct (Path.isAbsolute p), (Path.endsWithSep p).
  - destruct (Path.isAbsolute p); [done|].
    destruct (Path.endsWithSep p); [|done].
    by destruct (Path.normalizeString _ _).
Qed.

Lemma join_is_truthy args : Js.falsy (Path.join args) = false.
Proof.
  unfold Path.join. destruct (filter _ args); [done|].
  apply normalize_is_truthy.
Qed.

Lemma normalize_absolute p :
  Path.isAbsolute p = true → Path.isAbsolute (Path.normalize p) = true.
Proof.
  intros A. unfold Path.normalize. rewrite A.
  destruct (Js.falsy p) eqn:F; [by destruct p|].
  by destruct (Js.falsy (Path.normalizeString _ _)).
Qed.

Lemma join_absolute root rest :
  Path.isAbsolute root = true → Path.isAbsolute (Path.join (root :: rest)) = true.
Proof.
  intros A. unfold Path.join. rewrite filter_cons.
  destruct root as [|c root]; [done|].
  rewrite decide_True by done.
  apply normalize_absolute.
  destruct (filter _ rest); [done|by destruct c].
Qed.

(** ** Locating an executable *)

Lemma probes_truthy s dirs tool p :
  p ∈ probes s dirs tool → Js.truthy p = true.
Proof.
  unfold probes. intros (d & Hp & _)%list_elem_of_bind.
  apply list_elem_of_fmap in Hp as (c & -> & _).
  unfold Js.truthy. by rewrite join_is_truthy.
Qed.

Lemma find_elem_of {A} (f : A → bool) l x : List.find f l = Some x → x ∈ l.
Proof. intros [H _]%find_some. by apply list_elem_of_In. Qed.

Lemma which_run tool check s :
  (which tool check s).1 =
    match env s !! path_variable s with
    | None => Throw (Error ("Unable to locate executable file: " +:+ tool))
    | Some v =>
        match List.find (is_match s)
                (probes s (Js.split (path_delimiter s) v) tool) with
        | Some p => Ok (Path.resolve (process_cwd s) [p])
        | None => Throw (Error ("Unable to locate executable file: " +:+ tool))
        end
    end.
Proof.
  unfold which, bind, debug, modify, lookPath, search_path. simpl.
  change (path_variable (add_log _ _ s)) with (path_variable s).
  change (path_delimiter (add_log _ _ s)) with (path_delimiter s).
  destruct (env s !! path_variable s) as [v|]; simpl; [|done].
  set (s1 := add_log _ _ s).
  change (is_match s1) with (is_match s).
  change (probes s1) with (probes s).
  destruct (List.find _ _) as [p|] eqn:F; [|done].
  apply find_elem_of, probes_truthy in F. by rewrite F.
Qed.






(** ** Extending the search path *)

Lemma split_go_single d a b cur :
  Js.split_go (String d "") (a +:+ String d b) 0 cur
  = Js.split_go (String d "") a 0 cur ++ Js.split_go (String d "") b 0 "".
Proof.
  revert cur. induction a as [|c a IH]; intros cur.
  - rewrite app_empty_l. simpl. by rewrite Ascii.eqb_refl.
  - rewrite app_cons. simpl. destruct (Ascii.eqb d c); simpl.
    + by rewrite IH.
    + apply IH.
Qed.

Lemma split_single d a b :
  Js.split (String d "") (a +:+ String d "" +:+ b)
  = Js.split (String d "") a ++ Js.split (String d "") b.
Proof. apply split_go_single. Qed.

Lemma split_delimiter s a b :
  Js.split (path_delimiter s) (a +:+ path_delimiter s +:+ b)
  = Js.split (path_delimiter s) a ++ Js.split (path_delimiter s) b.
Proof. unfold path_delimiter. case_decide; apply split_single. Qed.

Lemma probes_app s l1 l2 tool :
  probes s (l1 ++ l2) tool = probes s l1 tool ++ probes s l2 tool.
Proof. apply bind_app. Qed.

Lemma addPath_run p s :
  let new := p +:+ path_delimiter s +:+ env_text (env s !! path_variable s) in
  addPath p s =
    (Ok tt,
     add_log LInfo ("Updated PATH: " +:+ new)
       (set_env (insert "Path" new)
          (set_env (insert (path_variable s) new)
             (add_log LDebug ("new Path: " +:+ new) s)))).
Proof.
  unfold addPath, bind, get, debug, info, modify, path_variable. simpl.
  do 3 f_equal. unfold env_text. f_equal.
  case_decide.
  - by rewrite insert_insert_eq, lookup_insert_eq.
  - by rewrite lookup_insert_ne, lookup_insert_eq.
Qed.

(** C8.  With [prev] the value of the search-path variable ([Path] on
    Windows, [PATH] elsewhere), [addPath p] sets that variable, and the
    variable [Path], to [p], the path delimiter and [prev].  From then on
    the locator searches the directories of [p] before those of [prev]:
    [which] answers with the first match among the probes of [p] followed
    by the probes of [prev]. *)
Theorem C8_addPath_prepends p prev tool check s :
  env s !! path_variable s = Some prev →
  (addPath p s).1 = Ok tt
  ∧ env (addPath p s).2 =
      <["Path" := p +:+ path_delimiter s +:+ prev]>
        (<[path_variable s := p +:+ path_delimiter s +:+ prev]> (env s))
  ∧ env (addPath p s).2 !! path_variable (addPath p s).2
      = Some (p +:+ path_delimiter s +:+ prev)
  ∧ env (addPath p s).2 !! "Path" = Some (p +:+ path_delimiter s +:+ prev)
  ∧ search_path (addPath p s).2 =
      Some (Js.split (path_delimiter s) p ++ Js.split (path_delimiter s) prev)
  ∧ (which tool check (addPath p s).2).1 =
      match List.find (is_match s)
              (probes s (Js.split (path_delimiter s) p) tool
               ++ probes s (Js.split (path_delimiter s) prev) tool) with
      | Some q => Ok (Path.resolve (process_cwd s) [q])
      | None => Throw (Error ("Unable to locate executable file: " +:+ tool))
      end.
Proof.
  intros Hprev. rewrite which_run, addPath_run, Hprev. simpl.
  set (new := p +:+ path_delimiter s +:+ prev).
  set (s' := add_log _ _ (set_env _ _)).
  change (path_variable s') with (path_variable s).
  change (path_delimiter s') with (path_delimiter s).
  change (process_cwd s') with (process_cwd s).
  change (is_match s') with (is_match s).
  change (probes s') with (probes s).
  assert (env s' !! path_variable s = Some new) as Hnew.
  { subst s'. simpl. unfold path_variable. case_decide.
    - by rewrite lookup_insert_eq.
    - by rewrite lookup_insert_ne, lookup_insert_eq. }
  split; [done|]. split; [done|]. split; [done|].
  split; [subst s'; simpl; by rewrite lookup_insert_eq|].
  unfold search_path.
  change (path_variable s') with (path_variable s).
  change (path_delimiter s') with (path_delimiter s).
  rewrite Hnew. subst new. simpl.
  rewrite split_delimiter. split; [done|].
  subst s'. simpl in Hnew. rewrite Hnew.
  by rewrite split_delimiter, probes_app.
Qed.

Lemma C8_addPath_prepends_witness :
  let s := Sample.state {[ "PATH" := "/usr/bin:/bin" ]} in
  env s !! path_variable s = Some "/usr/bin:/bin"
  ∧ env (addPath "/new/bin" s).2 !! "PATH" = Some "/new/bin:/usr/bin:/bin"
  ∧ env (addPath "/new/bin" s).2 !! "Path" = Some "/new/bin:/usr/bin:/bin"
  ∧ (which "grm" false s).1 = Throw (Error "Unable to locate executable file: grm")
  ∧ (which "grm" false (addPath "/new/bin" s).2).1 = Ok "/new/bin/grm".
Proof.
  intros s.
  destruct (C8_addPath_prepends "/new/bin" "/usr/bin:/bin" "grm" false s)
    as (_ & _ & H1 & H2 & _ & H3); [reflexivity|].
  split; [reflexivity|]. split; [exact H1|]. split; [exact H2|].
  split; [reflexivity|]. exact H3.
Defined.

Example addPath_without_a_search_path :
  env (addPath "/new/bin" (Sample.state ∅)).2 !! "PATH" = Some "/new/bin:undefined".
Proof. reflexivity. Qed.

(** ** The cache root *)

Section CacheRoot.

Context `{agent : BuildAgent}.

Lemma cacheDir_run s :
  let v := Js.trim (default "" (env s !! cacheDirVariable)) in
  cacheDir s =
    (Ok (Path.resolve (process_cwd s) [Path.normalize v]),
     add_log LDebug ("getVariable - " +:+ cacheDirVariable +:+ ": " +:+ v) s).
Proof.
  unfold cacheDir, getVariableAsPath, bind.
  by rewrite getVariable_run by apply variables_are_own.
Qed.

(** The root of the cache is never the empty string: without a value, it is
    the working directory. *)
Lemma cacheDir_is_truthy s root s' :
  cacheDir s = (Ok root, s') → Js.falsy root = false ∧ Path.isAbsolute root = true.
Proof.
  rewrite cacheDir_run. intros [= <- _].
  split; [apply absolute_is_truthy|]; apply resolve_is_absolute.
Qed.

Lemma cacheDir_unset s :
  Js.blank (default "" (env s !! cacheDirVariable)) = true →
  (cacheDir s).1 = Ok (Path.resolve (process_cwd s) ["."]).
Proof.
  rewrite cacheDir_run. simpl. intros B. rewrite <- falsy_trim in B.
  apply falsy_empty in B. by rewrite B.
Qed.

End CacheRoot.

(** C1, on the code.  Without a value for the cache variable, the cache root
    is the working directory, [/work] here, not the empty string: the guard
    "cache root not set" is not taken.  [cacheToolDirectory] copies the
    source into [/work/tool/1.2.3] and returns that path, and
    [findLocalTool] probes the file system; once the tool is cached it
    returns the path, not [null]. *)
Theorem C1_unset_cache_root_is_the_working_directory :
  let s := Sample.state ∅ in
  let cached := cacheToolDirectory (agent := Sample.agent) Sample.clean "dl" "tool" "1.2.3" s in
  env s !! cacheDirVariable (BuildAgent := Sample.agent) = None
  ∧ (cacheDir (agent := Sample.agent) s).1 = Ok "/work"
  ∧ cached.1 = Ok "/work/tool/1.2.3"
  ∧ calls cached.2 =
      [FsAccess "/work/tool/1.2.3"; FsMkdir "/work/tool/1.2.3";
       FsCp "dl" "/work/tool/1.2.3"]
  ∧ tree cached.2 !! ["work"; "tool"; "1.2.3"; "tool.dll"] = Some (Fs.EFile "binary")
  ∧ (findLocalTool (agent := Sample.agent) Sample.clean "tool" "1.2.3" s).1 = Ok None
  ∧ calls (findLocalTool (agent := Sample.agent) Sample.clean "tool" "1.2.3" s).2
      = [FsAccess "/work/tool/1.2.3"]
  ∧ (findLocalTool (agent := Sample.agent) Sample.clean "tool" "1.2.3" cached.2).1
      = Ok (Some "/work/tool/1.2.3").
Proof. repeat split; vm_compute; reflexivity. Qed.

(** ** Paths in normal form *)

Lemma join_cons_cons sep x y l :
  Js.join sep (x :: y :: l) = x +:+ sep +:+ Js.join sep (y :: l).
Proof. done. Qed.

Lemma no_char_rev_app d a b :
  no_char d (String.rev_app a b) = no_char d a && no_char d b.
Proof.
  revert b. induction a as [|c a IH]; intros b; [done|].
  cbn [String.rev_app no_char]. rewrite IH. cbn [no_char].
  by destruct (negb (Ascii.eqb c d)), (no_char d a).
Qed.

Lemma split_go_pieces d s cur :
  no_char d cur = true →
  Forall (λ x, no_char d x = true) (Js.split_go (String d "") s 0 cur).
Proof.
  revert cur. induction s as [|c s IH]; intros cur Hcur.
  - apply Forall_singleton. unfold String.rev.
    by rewrite no_char_rev_app, Hcur.
  - cbn [Js.split_go Js.startsWith]. destruct (Ascii.eqb d c) eqn:E; simpl.
    + apply Forall_cons. split; [|by apply IH].
      unfold String.rev. by rewrite no_char_rev_app, Hcur.
    + apply IH. cbn [no_char]. rewrite Hcur.
      rewrite Ascii.eqb_sym, E. done.
Qed.

Lemma split_pieces d s :
  Forall (λ x, no_char d x = true) (Js.split (String d "") s).
Proof. by apply split_go_pieces. Qed.

Lemma split_go_plain d s cur :
  no_char d s = true →
  Js.split_go (String d "") s 0 cur = [String.rev_app cur s].
Proof.
  revert cur. induction s as [|c s IH]; intros cur Hs; [done|].
  cbn [no_char] in Hs. apply andb_true_iff in Hs as [Hc Hs].
  cbn [Js.split_go Js.startsWith]. rewrite Ascii.eqb_sym.
  apply negb_true_iff in Hc. rewrite Hc. simpl. by rewrite IH.
Qed.

Lemma split_plain d s :
  no_char d s = true → Js.split (String d "") s = [s].
Proof. intros H. unfold Js.split. by rewrite split_go_plain. Qed.

(** Joining and splitting at a character are inverse on pieces without
    that character. *)
Lemma split_join d l :
  l ≠ [] → Forall (λ x, no_char d x = true) l →
  Js.split (String d "") (Js.join (String d "") l) = l.
Proof.
  induction l as [|x l IH]; [done|]. intros _ H.
  apply Forall_cons in H as [Hx Hl].
  destruct l as [|y l]; [by apply split_plain|].
  rewrite join_cons_cons, split_single, split_plain by done.
  by rewrite IH.
Qed.

Lemma normal_segment_spec x :
  normal_segment x = true ↔
  (x ≠ "" ∧ x ≠ "." ∧ x ≠ "..") ∧ no_char "/" x = true.
Proof.
  unfold normal_segment. rewrite andb_true_iff, negb_true_iff.
  rewrite bool_decide_eq_false. tauto.
Qed.

Lemma normalize_step_normal segs seg :
  Forall (λ x, normal_segment x = true) segs →
  no_char "/" seg = true →
  Forall (λ x, normal_segment x = true) (Path.normalize_step false segs seg).
Proof.
  intros Hsegs Hseg. unfold Path.normalize_step.
  case_decide as H1; [done|]. case_decide as H2.
  - destruct segs as [|top rest]; [done|].
    case_decide; [done|]. by apply Forall_cons in Hsegs as [_ ?].
  - apply Forall_cons. split; [|done].
    apply normal_segment_spec. tauto.
Qed.

Lemma normalize_fold_normal l segs :
  Forall (λ x, no_char "/" x = true) l →
  Forall (λ x, normal_segment x = true) segs →
  Forall (λ x, normal_segment x = true)
         (fold_left (Path.normalize_step false) l segs).
Proof.
  revert segs. induction l as [|x l IH]; intros segs Hl Hsegs; [done|].
  apply Forall_cons in Hl as [Hx Hl]. simpl.
  apply IH; [done|]. by apply normalize_step_normal.
Qed.

Lemma normalize_fold_push b l segs :
  Forall (λ x, normal_segment x = true) l →
  fold_left (Path.normalize_step b) l segs = rev l ++ segs.
Proof.
  revert segs. induction l as [|x l IH]; intros segs Hl; [done|].
  apply Forall_cons in Hl as [Hx Hl]. simpl.
  apply normal_segment_spec in Hx as [(H1 & H2 & H3) _].
  rewrite IH by done. unfold Path.normalize_step.
  rewrite decide_False by tauto. rewrite decide_False by done.
  by rewrite <- app_assoc.
Qed.

(** A normal form, written out with a slash in front and behind, is split
    and normalised into itself. *)
Lemma normalize_written_out b l :
  Forall (λ x, normal_segment x = true) l →
  Path.normalize_segments b
    (Js.split "/" ("/" +:+ Js.join "/" l +:+ "/" +:+ "")) = l.
Proof.
  intros Hl.
  change ("/" +:+ Js.join "/" l +:+ "/" +:+ "")
    with ("" +:+ "/" +:+ (Js.join "/" l +:+ "/" +:+ "")).
  rewrite !split_single.
  assert (Js.split "/" (Js.join "/" l) = l ∨ (l = [] ∧ Js.split "/" (Js.join "/" l) = [""]))
    as [->| [-> ->]].
  { destruct l as [|x l]; [by right|]. left. apply split_join; [done|].
    eapply Forall_impl; [exact Hl|]. intros y Hy.
    by apply normal_segment_spec in Hy as [_ ?]. }
  - unfold Path.normalize_segments.
    change (Js.split "/" "") with [""].
    rewrite !fold_left_app.
    change (fold_left (Path.normalize_step b) [""] []) with (@nil string).
    rewrite (normalize_fold_push b l []) by done.
    change (fold_left (Path.normalize_step b) [""] (rev l ++ []))
      with (rev l ++ []).
    by rewrite app_nil_r, rev_involutive.
  - done.
Qed.

Lemma resolve_go_single s p :
  ∃ joined, Path.resolve_go [p] (process_cwd s) "" = (joined, true).
Proof.
  unfold process_cwd. simpl.
  destruct p as [|c p]; simpl; [eauto|].
  destruct (Path.isAbsolute (String c p)); eauto.
Qed.

(** [path.resolve] writes out the place that the path names. *)
Lemma resolve_key s p :
  Path.resolve (process_cwd s) [p] = "/" +:+ Js.join "/" (key_of s p).
Proof.
  unfold Path.resolve, key_of, Path.resolve_segments. simpl rev.
  destruct (resolve_go_single s p) as [joined ->]. done.
Qed.

Lemma key_normal s p : Forall (λ x, normal_segment x = true) (key_of s p).
Proof.
  unfold key_of, Path.resolve_segments. simpl rev.
  destruct (resolve_go_single s p) as [joined ->]. simpl negb.
  unfold Path.normalize_segments.
  apply List.Forall_rev.
  apply normalize_fold_normal; [apply split_pieces|done].
Qed.

Lemma key_of_written_out s l :
  Forall (λ x, normal_segment x = true) l →
  key_of s ("/" +:+ Js.join "/" l) = l.
Proof.
  intros Hl. unfold key_of, Path.resolve_segments. simpl rev.
  assert (Path.resolve_go ["/" +:+ Js.join "/" l] (process_cwd s) ""
          = (("/" +:+ Js.join "/" l) +:+ "/" +:+ "", true)) as -> by done.
  simpl negb. rewrite app_assoc_s. by apply normalize_written_out.
Qed.

(** Resolving a path again changes neither the path nor the place it
    names. *)
Lemma key_of_resolve s p : key_of s (Path.resolve (process_cwd s) [p]) = key_of s p.
Proof. rewrite resolve_key. apply key_of_written_out, key_normal. Qed.

Lemma resolve_idem s p :
  Path.resolve (process_cwd s) [Path.resolve (process_cwd s) [p]]
  = Path.resolve (process_cwd s) [p].
Proof. by rewrite (resolve_key s (Path.resolve _ _)), key_of_resolve, resolve_key. Qed.

(** ** The file system model *)

Lemma lookup_remove (k : Fs.Key) (t : Fs.Tree) (q : Fs.Key) :
  Fs.remove k t !! q = if decide (k `prefix_of` q) then None else t !! q.
Proof.
  unfold Fs.remove. case_decide as Hp.
  - apply map_lookup_filter_None. right. intros x _. simpl. tauto.
  - destruct (t !! q) as [e|] eqn:E.
    + apply map_lookup_filter_Some. done.
    + apply map_lookup_filter_None. by left.
Qed.

Lemma elem_of_ancestors (q k : Fs.Key) :
  q ∈ Fs.ancestors k ↔ q ≠ [] ∧ q `prefix_of` k.
Proof.
  revert q. induction k as [|x k IH]; intros q; simpl.
  - split; [by intros ?%elem_of_nil|]. by intros [? ?%prefix_nil_inv].
  - rewrite elem_of_cons, list_elem_of_fmap. split.
    + intros [->|(q' & -> & [Hq Hp]%IH)].
      * split; [done|]. apply prefix_cons, prefix_nil.
      * split; [done|]. by apply prefix_cons.
    + intros [Hq Hp]. destruct q as [|y q]; [done|].
      pose proof (prefix_cons_inv_1 _ _ _ _ Hp) as ->.
      apply prefix_cons_inv_2 in Hp.
      destruct q as [|z q]; [by left|]. right.
      exists (z :: q). split; [done|]. apply IH. done.
Qed.

Lemma lookup_mkdirs (l : list Fs.Key) (t : Fs.Tree) (q : Fs.Key) :
  foldr (λ q acc, <[q := Fs.EDir]> acc) t l !! q
  = if decide (q ∈ l) then Some Fs.EDir else t !! q.
Proof.
  induction l as [|a l IH]; simpl.
  - done.
  - destruct (decide (a = q)) as [->|Hne].
    + rewrite lookup_insert_eq, decide_True; [done|]. apply elem_of_cons. by left.
    + rewrite lookup_insert_ne by done. rewrite IH.
      destruct (decide (q ∈ l)) as [Hin|Hnin].
      * rewrite decide_True; [done|]. apply elem_of_cons. by right.
      * rewrite decide_False; [done|]. rewrite elem_of_cons. by intros [?|?].
Qed.

Lemma mkdirp_Some k t t' :
  Fs.mkdirp k t = Some t' →
  (∀ q, t' !! q = if decide (q ∈ Fs.ancestors k) then Some Fs.EDir else t !! q).
Proof.
  unfold Fs.mkdirp. destruct (forallb _ _); [|done].
  intros [= <-] q. apply lookup_mkdirs.
Qed.

Lemma lookup_after_mkdirp k t t' :
  Fs.mkdirp k t = Some t' → Fs.lookup t' k = Some Fs.EDir.
Proof.
  intros H. destruct k as [|x k]; [done|]. simpl.
  rewrite (mkdirp_Some _ _ _ H), decide_True; [done|].
  apply elem_of_ancestors. done.
Qed.

Lemma strip_Some src k r : Fs.strip src k = Some r ↔ k = src ++ r.
Proof.
  revert k. induction src as [|a src IH]; intros k; simpl.
  - split; [by intros [= ->]|by intros ->].
  - destruct k as [|b k]; [done|].
    case_decide as E.
    + subst b. rewrite IH. split; [by intros ->|by intros [= ->]].
    + split; [done|]. by intros [= ? ?].
Qed.

Lemma rebase_Some src dst k q :
  Fs.rebase src dst k = Some q ↔ ∃ r, k = src ++ r ∧ q = dst ++ r.
Proof.
  unfold Fs.rebase. destruct (Fs.strip src k) as [r|] eqn:E; simpl.
  - apply strip_Some in E. split.
    + intros [= <-]. eauto.
    + intros (r' & Hk & ->). subst k. by apply app_inv_head in Hk as ->.
  - split; [done|]. intros (r & Hk & _).
    apply strip_Some in Hk. congruence.
Qed.

Lemma lookup_moved src dst t r e :
  Fs.moved src dst t !! (dst ++ r) = Some e ↔ t !! (src ++ r) = Some e.
Proof.
  unfold Fs.moved. split.
  - intros H%elem_of_list_to_map_2.
    apply list_elem_of_omap in H as ([k e'] & Hin & Hg). simpl in Hg.
    destruct (Fs.rebase src dst k) as [q|] eqn:R; simplify_eq/=.
    apply rebase_Some in R as (r' & -> & ->%app_inv_head).
    by apply elem_of_map_to_list in Hin.
  - intros H. apply elem_of_list_to_map_1'.
    + intros y Hy. apply list_elem_of_omap in Hy as ([k e'] & Hin & Hg).
      simpl in Hg.
      destruct (Fs.rebase src dst k) as [q|] eqn:R; simplify_eq/=.
      apply rebase_Some in R as (r' & -> & ->%app_inv_head).
      apply elem_of_map_to_list in Hin. congruence.
    + apply list_elem_of_omap. exists (src ++ r, e). split.
      * by apply elem_of_map_to_list.
      * simpl. assert (Fs.rebase src dst (src ++ r) = Some (dst ++ r)) as ->; [|done].
        apply rebase_Some. eauto.
Qed.

Lemma lookup_moved_None src dst t r :
  t !! (src ++ r) = None → Fs.moved src dst t !! (dst ++ r) = None.
Proof.
  intros H. destruct (Fs.moved src dst t !! (dst ++ r)) as [e|] eqn:E; [|done].
  apply lookup_moved in E. congruence.
Qed.

Lemma lookup_below (t : Fs.Tree) (k r : Fs.Key) :
  r ≠ [] → Fs.lookup t (k ++ r) = t !! (k ++ r).
Proof. intros Hr. destruct (k ++ r) eqn:E; [|done]. by destruct k, r. Qed.

Lemma lookup_not_root (t : Fs.Tree) (k : Fs.Key) :
  k ≠ [] → Fs.lookup t k = t !! k.
Proof. by destruct k. Qed.

(** Below a well-formed tree's entry, every step up is a directory. *)
Lemma well_formed_above t k r e :
  Fs.well_formed t → r ≠ [] → t !! (k ++ r) = Some e →
  Fs.lookup t k = Some Fs.EDir.
Proof.
  intros Hwf. revert e. induction r as [|x r IH] using rev_ind; [done|].
  intros e _ H. rewrite (assoc_L (++)) in H.
  apply Hwf in H. destruct r as [|y r]; [by rewrite app_nil_r in H|].
  rewrite lookup_below in H by done. eapply IH; done.
Qed.

(** ** Resolving a path name *)

Lemma rev_removelast {A} (l : list A) : rev (removelast l) = tail (rev l).
Proof.
  induction l as [|x l IH] using rev_ind; [done|].
  by rewrite removelast_last, rev_unit.
Qed.

Lemma Forall_removelast {A} (P : A → Prop) (l : list A) :
  Forall P l → Forall P (removelast l).
Proof.
  induction l as [|x l IH] using rev_ind; [done|].
  rewrite removelast_last. by intros [? _]%Forall_app.
Qed.

(** Where a walk arrives is where [path.resolve] says, when it arrives. *)
Lemma walk_key t cur names k e :
  Forall (λ x, x ≠ "..") cur →
  Fs.walk t cur names = Fs.Here k e →
  k = rev (fold_left (Path.normalize_step false) names (rev cur))
  ∧ Fs.lookup t k = Some e.
Proof.
  revert cur. induction names as [|x names IH]; intros cur Hcur; simpl.
  - destruct (Fs.lookup t cur) eqn:L; [|done]. intros [= <- <-].
    by rewrite rev_involutive.
  - destruct (Fs.lookup t cur) as [[]|]; [done| |done].
    unfold Path.normalize_step at 2.
    case_bool_decide as H1; [rewrite decide_True by done; by apply IH|].
    rewrite decide_False by done.
    case_bool_decide as H2.
    + rewrite decide_True by done. intros H.
      apply IH in H; [|by apply Forall_removelast].
      rewrite rev_removelast in H.
      destruct (rev cur) as [|top rest] eqn:E; [done|].
      rewrite decide_False; [done|].
      apply List.Forall_rev in Hcur. rewrite E in Hcur.
      by apply Forall_cons in Hcur as [? _].
    + rewrite decide_False by done. intros H.
      apply IH in H; [|by apply Forall_app; split; [|apply Forall_singleton]].
      by rewrite rev_unit in H.
Qed.

Lemma fold_skip_empty b l segs :
  fold_left (Path.normalize_step b) (l ++ [""]) segs
  = fold_left (Path.normalize_step b) l segs.
Proof.
  rewrite fold_left_app. simpl. unfold Path.normalize_step at 1.
  by rewrite decide_True by (by left).
Qed.

Lemma cwd_key_fold s :
  cwd_key s
  = rev (fold_left (Path.normalize_step false) (Js.split "/" (process_cwd s)) []).
Proof.
  unfold cwd_key, key_of, Path.resolve_segments. simpl rev.
  assert (Path.resolve_go [""] (process_cwd s) ""
          = (process_cwd s +:+ "/" +:+ "", true)) as -> by done.
  simpl negb. unfold Path.normalize_segments.
  by rewrite split_single, fold_skip_empty.
Qed.

(** The place a path names, from the names in the path. *)
Lemma key_of_names s p :
  Js.falsy p = false →
  key_of s p
  = rev (fold_left (Path.normalize_step false) (Js.split "/" p)
                   (rev (if Path.isAbsolute p then [] else cwd_key s))).
Proof.
  intros Hp. unfold key_of, Path.resolve_segments. simpl rev.
  cbn [Path.resolve_go]. rewrite Hp.
  destruct (Path.isAbsolute p) eqn:A.
  - simpl negb. unfold Path.normalize_segments.
    by rewrite split_single, fold_skip_empty.
  - assert (Js.falsy (process_cwd s) = false) as -> by done.
    assert (Path.isAbsolute (process_cwd s) = true) as -> by done.
    simpl negb. unfold Path.normalize_segments.
    rewrite !split_single, (assoc_L (++)), fold_skip_empty, fold_left_app.
    by rewrite cwd_key_fold, rev_involutive.
Qed.

Lemma cwd_key_plain s : Forall (λ x, x ≠ "..") (cwd_key s).
Proof.
  eapply Forall_impl; [apply key_normal|].
  by intros x [(_ & _ & H) _]%normal_segment_spec.
Qed.

(** An entry that is found sits where [path.resolve] says. *)
Lemma locate_key s p k e :
  locate s p = Fs.Here k e →
  k = key_of s p ∧ Fs.lookup (tree s) k = Some e.
Proof.
  unfold locate. destruct (Js.falsy p) eqn:Hp; [done|].
  intros H. apply walk_key in H.
  - by rewrite key_of_names.
  - destruct (Path.isAbsolute p); [done|apply cwd_key_plain].
Qed.

Lemma seen_lookup s p e :
  seen s p = Some e →
  fault s (key_of s p) = None ∧ Fs.lookup (tree s) (key_of s p) = Some e.
Proof.
  unfold seen. destruct (locate s p) as [k e'| |] eqn:L; [|done..].
  apply locate_key in L as [-> L].
  destruct (fault s _); [done|]. by intros [= <-].
Qed.

(** The names in a normalised absolute path: no [..] is left. *)
Lemma names_of_written_out (l : list string) tail :
  Forall (λ x, normal_segment x = true) l →
  Forall (λ x, x ≠ "..") (Js.split "/" tail) →
  Forall (λ x, x ≠ "..") (Js.split "/" (Js.join "/" l +:+ "/" +:+ tail)).
Proof.
  intros Hl Ht. rewrite split_single. apply Forall_app. split; [|done].
  destruct l as [|x l]; [by apply Forall_singleton|].
  rewrite split_join; [|done|].
  - eapply Forall_impl; [exact Hl|].
    by intros y [(_ & _ & H) _]%normal_segment_spec.
  - eapply Forall_impl; [exact Hl|].
    by intros y [_ H]%normal_segment_spec.
Qed.

Lemma names_of_normalize p :
  Path.isAbsolute p = true →
  Forall (λ x, x ≠ "..") (Js.split "/" (Path.normalize p)).
Proof.
  intros A. unfold Path.normalize. rewrite A.
  destruct (Js.falsy p); [by apply Forall_singleton|].
  unfold Path.normalizeString. simpl negb.
  set (segs := Path.normalize_segments false (Js.split "/" p)).
  assert (Forall (λ x, normal_segment x = true) segs) as Hsegs.
  { apply List.Forall_rev. apply normalize_fold_normal; [apply split_pieces|done]. }
  destruct (Js.falsy (Js.join "/" segs)) eqn:F.
  { by repeat constructor. }
  change ("/" +:+ ?q) with ("" +:+ "/" +:+ q).
  rewrite split_single. apply Forall_cons. split; [done|].
  destruct (Path.endsWithSep p).
  - change (Js.join "/" segs +:+ "/") with (Js.join "/" segs +:+ "/" +:+ "").
    apply names_of_written_out; [done|by apply Forall_singleton].
  - destruct segs as [|x l]; [done|]. rewrite split_join; [|done|].
    + eapply Forall_impl; [exact Hsegs|].
      by intros y [(_ & _ & H) _]%normal_segment_spec.
    + eapply Forall_impl; [exact Hsegs|].
      by intros y [_ H]%normal_segment_spec.
Qed.

Lemma names_of_join root rest :
  Path.isAbsolute root = true →
  Forall (λ x, x ≠ "..") (Js.split "/" (Path.join (root :: rest))).
Proof.
  intros A. unfold Path.join. rewrite filter_cons.
  destruct root as [|c root]; [done|].
  rewrite decide_True by done.
  apply names_of_normalize.
  destruct (filter _ rest); [done|by destruct c].
Qed.

(** Without [..], the names that count are appended one by one. *)
Lemma fold_plain names segs :
  Forall (λ x, x ≠ "..") names →
  fold_left (Path.normalize_step false) names segs
  = rev (filter (λ x, ¬ (x = "" ∨ x = ".")) names) ++ segs.
Proof.
  revert segs. induction names as [|x names IH]; intros segs H; [done|].
  apply Forall_cons in H as [Hx H]. simpl. rewrite IH by done.
  unfold Path.normalize_step. rewrite filter_cons.
  destruct (decide (x = "" ∨ x = ".")) as [E|E].
  - by rewrite decide_False by tauto.
  - rewrite decide_False by done. rewrite decide_True by done. simpl.
    by rewrite <- (assoc_L (++)).
Qed.

Lemma walk_plain t cur names :
  Forall (λ x, x ≠ "..") names →
  (∀ q, cur `prefix_of` q →
        q `prefix_of` cur ++ filter (λ x, ¬ (x = "" ∨ x = ".")) names →
        Fs.lookup t q = Some Fs.EDir) →
  Fs.walk t cur names
  = Fs.Here (cur ++ filter (λ x, ¬ (x = "" ∨ x = ".")) names) Fs.EDir.
Proof.
  revert cur. induction names as [|x names IH]; intros cur H Hq.
  - simpl. rewrite app_nil_r in *. by rewrite Hq.
  - apply Forall_cons in H as [Hx H]. simpl.
    rewrite (Hq cur) by (done || apply prefix_app_r; done).
    rewrite filter_cons in *.
    case_bool_decide as E.
    + rewrite decide_False in * by tauto. by apply IH.
    + rewrite decide_True in * by done.
      rewrite bool_decide_eq_false_2 by done.
      set (rest := filter _ names) in *.
      replace (cur ++ x :: rest) with ((cur ++ [x]) ++ rest) in *
        by (by rewrite <- (assoc_L (++))).
      apply IH; [done|].
      intros q Hc Hk. apply Hq; [|done]. etrans; [|exact Hc].
      by apply prefix_app_r.
Qed.

(** In a well-formed tree, a directory is found under any absolute name
    for it that has no [..]. *)
Lemma locate_plain s p :
  Fs.well_formed (tree s) →
  Path.isAbsolute p = true →
  Forall (λ x, x ≠ "..") (Js.split "/" p) →
  Fs.lookup (tree s) (key_of s p) = Some Fs.EDir →
  locate s p = Fs.Here (key_of s p) Fs.EDir.
Proof.
  intros Hwf A Hn L.
  assert (Js.falsy p = false) as Hp by (by destruct p).
  rewrite key_of_names in * by done. unfold locate. rewrite Hp, A in *.
  change (rev []) with (@nil string) in L |- *.
  rewrite fold_plain, app_nil_r, rev_involutive in * by done.
  rewrite (walk_plain _ [] _ Hn); [done|].
  change ([] ++ ?l) with l. intros q _ [r Hr]. rewrite Hr in L.
  destruct r as [|x r]; [by rewrite app_nil_r in L|].
  rewrite lookup_below in L by done.
  by apply (well_formed_above _ q (x :: r) Fs.EDir).
Qed.

Lemma seen_plain s p :
  Fs.well_formed (tree s) →
  Path.isAbsolute p = true →
  Forall (λ x, x ≠ "..") (Js.split "/" p) →
  fault s (key_of s p) = None →
  Fs.lookup (tree s) (key_of s p) = Some Fs.EDir →
  seen s p = Some Fs.EDir.
Proof.
  intros Hwf A Hn F L. unfold seen. by rewrite locate_plain, F.
Qed.

(** Creating the directories of a path without [..], name by name. *)
Lemma make_plain t cur names :
  Forall (λ x, x ≠ "..") names →
  Fs.lookup t cur = Some Fs.EDir →
  let segs := filter (λ x, ¬ (x = "" ∨ x = ".")) names in
  match Fs.make t cur names with
  | inr t' =>
      (∀ (q : Fs.Key) d, q ≠ [] → q `prefix_of` segs →
                         t !! (cur ++ q) ≠ Some (Fs.EFile d))
      ∧ (∀ q : Fs.Key, q ≠ [] → q `prefix_of` segs →
                       t' !! (cur ++ q) = Some Fs.EDir)
      ∧ (∀ q0 : Fs.Key,
           (∀ q : Fs.Key, q ≠ [] → q `prefix_of` segs → q0 ≠ cur ++ q) →
           t' !! q0 = t !! q0)
  | inl _ =>
      ∃ (q : Fs.Key) d, q ≠ [] ∧ q `prefix_of` segs
                        ∧ t !! (cur ++ q) = Some (Fs.EFile d)
  end.
Proof.
  revert t cur. induction names as [|x names IH]; intros t cur H L.
  { simpl. rewrite L. split; [|split; [|done]].
    - intros q d Hq [r Hr]. by destruct q.
    - intros q Hq [r Hr]. by destruct q. }
  apply Forall_cons in H as [Hx H]. cbn zeta. rewrite filter_cons.
  cbn [Fs.make]. rewrite L.
  case_bool_decide as E.
  { rewrite decide_False by tauto. by apply IH. }
  rewrite decide_True by done. rewrite bool_decide_eq_false_2 by done.
  set (segs := filter _ names).
  assert (∀ q : Fs.Key, q ≠ [] → q `prefix_of` x :: segs →
            q = [x] ∨ ∃ q', q' ≠ [] ∧ q' `prefix_of` segs ∧ q = x :: q') as Hcases.
  { intros q Hq [r Hr]. destruct q as [|y q]; [done|].
    simpl in Hr. injection Hr as <- Hr.
    destruct q as [|z q]; [by left|right].
    exists (z :: q). split; [done|]. split; [by exists r|done]. }
  assert (∀ q' : Fs.Key, cur ++ x :: q' = (cur ++ [x]) ++ q') as Hassoc
    by (intros q'; by rewrite <- (assoc_L (++))).
  assert (∀ q' : Fs.Key, q' ≠ [] → (cur ++ [x]) ++ q' ≠ cur ++ [x]) as Hne.
  { intros q' Hq' Heq. rewrite <- (app_nil_r (cur ++ [x])) in Heq at 2.
    by apply (inj (app _)) in Heq. }
  rewrite lookup_below by done.
  destruct (t !! (cur ++ [x])) as [[d|]|] eqn:Lc.
  - (* a file is in the way *)
    assert (∃ err, Fs.make t (cur ++ [x]) names = inl err) as [err ->].
    { destruct names; simpl; rewrite lookup_below, Lc by done; eauto. }
    exists [x], d. split; [done|]. split; [by exists segs|done].
  - specialize (IH t (cur ++ [x]) H). rewrite lookup_below in IH by done.
    specialize (IH Lc). fold segs in IH. cbn zeta in IH.
    destruct (Fs.make t (cur ++ [x]) names) as [err|t'].
    + destruct IH as (q & d & Hq & Hp & Hl). exists (x :: q), d.
      split; [done|]. split; [by apply prefix_cons|]. by rewrite (Hassoc q).
    + destruct IH as (Hfile & Hdir & Hrest). split; [|split].
      * intros q d Hq Hp. destruct (Hcases q Hq Hp) as [->|(q' & Hq' & Hp' & ->)];
          [by rewrite Lc|]. rewrite (Hassoc q'). by apply Hfile.
      * intros q Hq Hp. destruct (Hcases q Hq Hp) as [->|(q' & Hq' & Hp' & ->)].
        -- rewrite Hrest; [done|]. intros q' Hq' _ Heq. by eapply Hne.
        -- rewrite (Hassoc q'). by apply Hdir.
      * intros q0 Hq0. apply Hrest. intros q' Hq' Hp' ->.
        apply (Hq0 (x :: q')); [done|by apply prefix_cons|by rewrite (Hassoc q')].
  - specialize (IH (<[cur ++ [x] := Fs.EDir]> t) (cur ++ [x]) H).
    rewrite lookup_below, lookup_insert_eq in IH by done.
    specialize (IH eq_refl). fold segs in IH. cbn zeta in IH.
    assert (∀ q' : Fs.Key, q' ≠ [] →
              <[cur ++ [x] := Fs.EDir]> t !! ((cur ++ [x]) ++ q')
              = t !! ((cur ++ [x]) ++ q')) as Hother.
    { intros q' Hq'. rewrite lookup_insert_ne; [done|].
      intros Heq. by eapply Hne. }
    destruct (Fs.make _ (cur ++ [x]) names) as [err|t'].
    + destruct IH as (q & d & Hq & Hp & Hl). exists (x :: q), d.
      split; [done|]. split; [by apply prefix_cons|].
      by rewrite (Hassoc q), <- Hother.
    + destruct IH as (Hfile & Hdir & Hrest). split; [|split].
      * intros q d Hq Hp. destruct (Hcases q Hq Hp) as [->|(q' & Hq' & Hp' & ->)];
          [by rewrite Lc|]. rewrite (Hassoc q'), <- Hother by done. by apply Hfile.
      * intros q Hq Hp. destruct (Hcases q Hq Hp) as [->|(q' & Hq' & Hp' & ->)].
        -- rewrite Hrest; [by rewrite lookup_insert_eq|].
           intros q' Hq' _ Heq. by eapply Hne.
        -- rewrite (Hassoc q'). by apply Hdir.
      * intros q0 Hq0. rewrite Hrest.
        -- rewrite lookup_insert_ne; [done|]. intros <-.
           by apply (Hq0 [x]); [|exists segs|].
        -- intros q' Hq' Hp' ->.
           apply (Hq0 (x :: q')); [done|by apply prefix_cons|by rewrite (Hassoc q')].
Qed.

(** From the root, that is [mkdir -p] on the place the path names. *)
Lemma make_mkdirp t names :
  Forall (λ x, x ≠ "..") names →
  Fs.mkdirp (filter (λ x, ¬ (x = "" ∨ x = ".")) names) t
  = match Fs.make t [] names with inr t' => Some t' | inl _ => None end.
Proof.
  intros H. pose proof (make_plain t [] names H eq_refl) as Hm.
  cbn zeta in Hm. set (segs := filter _ names) in *. unfold Fs.mkdirp.
  destruct (Fs.make t [] names) as [err|t'].
  - destruct Hm as (q & d & Hq & Hp & Hl). simpl in Hl.
    destruct (forallb _ _) eqn:F; [|done].
    rewrite forallb_forall in F. specialize (F q).
    rewrite Hl in F. discriminate F.
    apply list_elem_of_In, elem_of_ancestors. done.
  - destruct Hm as (Hfile & Hdir & Hrest).
    assert (forallb (λ q, match t !! q with Some (Fs.EFile _) => false | _ => true end)
                    (Fs.ancestors segs) = true) as ->.
    { apply forallb_forall. intros q [Hq Hp]%list_elem_of_In%elem_of_ancestors.
      specialize (Hfile q). simpl in Hfile.
      destruct (t !! q) as [[d|]|]; [|done..]. by destruct (Hfile d). }
    f_equal. apply map_eq. intros q0. rewrite lookup_mkdirs.
    destruct (decide (q0 ∈ Fs.ancestors segs)) as [Hin|Hin].
    + apply elem_of_ancestors in Hin as [Hq Hp]. symmetry. by apply (Hdir q0).
    + symmetry. apply Hrest. intros q Hq Hp ->. apply Hin.
      by apply elem_of_ancestors.
Qed.

Lemma key_of_plain s p :
  Path.isAbsolute p = true →
  Forall (λ x, x ≠ "..") (Js.split "/" p) →
  key_of s p = filter (λ x, ¬ (x = "" ∨ x = ".")) (Js.split "/" p).
Proof.
  intros A Hn. assert (Js.falsy p = false) as Hp by (by destruct p).
  rewrite key_of_names, A by done. change (rev []) with (@nil string).
  by rewrite fold_plain, app_nil_r, rev_involutive.
Qed.

Lemma walk_plain_key t cur names k e :
  Forall (λ x, x ≠ "..") names →
  Fs.walk t cur names = Fs.Here k e →
  k = cur ++ filter (λ x, ¬ (x = "" ∨ x = ".")) names.
Proof.
  revert cur. induction names as [|x names IH]; intros cur H; simpl.
  - destruct (Fs.lookup t cur); [|done]. intros [= <- _]. by rewrite app_nil_r.
  - apply Forall_cons in H as [Hx H].
    destruct (Fs.lookup t cur) as [[]|]; [done| |done].
    rewrite filter_cons. case_bool_decide as E.
    + rewrite decide_False by tauto. by apply IH.
    + rewrite decide_True by done. rewrite bool_decide_eq_false_2 by done.
      intros ->%IH; [|done]. by rewrite <- (assoc_L (++)).
Qed.

(** A walk without [..] only looks at what is above its end. *)
Lemma walk_plain_inv t t' cur names k e :
  Forall (λ x, x ≠ "..") names →
  (∀ q, q `prefix_of` k → Fs.lookup t' q = Fs.lookup t q) →
  Fs.walk t cur names = Fs.Here k e →
  Fs.walk t' cur names = Fs.Here k e.
Proof.
  revert cur. induction names as [|x names IH]; intros cur H Hq Hw.
  - simpl in *. destruct (Fs.lookup t cur) eqn:L; [|done].
    injection Hw as <- <-. by rewrite Hq, L.
  - pose proof (walk_plain_key _ _ _ _ _ H Hw) as Hk.
    apply Forall_cons in H as [Hx H]. simpl in *.
    rewrite Hq by (rewrite Hk; by apply prefix_app_r).
    destruct (Fs.lookup t cur) as [[]|]; [done| |done].
    case_bool_decide; [by apply IH|].
    rewrite bool_decide_eq_false_2 in * by done. by apply IH.
Qed.

Lemma lookup_remove_below (k : Fs.Key) (t : Fs.Tree) (q : Fs.Key) :
  Fs.remove_below k t !! q
  = if decide (k `prefix_of` q ∧ q ≠ k) then None else t !! q.
Proof.
  unfold Fs.remove_below. case_decide as H.
  - apply map_lookup_filter_None. right. intros e _. simpl. tauto.
  - destruct (t !! q) as [e|] eqn:E.
    + by apply map_lookup_filter_Some.
    + apply map_lookup_filter_None. by left.
Qed.

Lemma remove_remove_below k t : Fs.remove k (Fs.remove_below k t) = Fs.remove k t.
Proof.
  apply map_eq. intros q. rewrite !lookup_remove, lookup_remove_below.
  case_decide as H; [done|]. rewrite decide_False; [done|]. tauto.
Qed.

Lemma lookup_above_removed k t (q : Fs.Key) :
  q `prefix_of` k → Fs.lookup (Fs.remove_below k t) q = Fs.lookup t q.
Proof.
  intros Hq. destruct q as [|x q]; [done|]. simpl.
  rewrite lookup_remove_below, decide_False; [done|].
  intros [Hk Hne]. apply Hne. by apply (anti_symm prefix).
Qed.

(** A directory of the cache, named by [path.join] from an absolute root,
    is seen exactly when it is there. *)
Lemma seen_joined s root rest :
  Fs.well_formed (tree s) →
  Path.isAbsolute root = true →
  fault s (key_of s (Path.join (root :: rest))) = None →
  seen s (Path.join (root :: rest)) = Some Fs.EDir
  ↔ Fs.lookup (tree s) (key_of s (Path.join (root :: rest))) = Some Fs.EDir.
Proof.
  intros Hwf A F. split; [by intros [_ ?]%seen_lookup|].
  apply seen_plain; [done| | |done].
  - by apply join_absolute.
  - by apply names_of_join.
Qed.

(** ** Steps of the monad *)

Lemma bind_ok {A B} (m : M A) (f : A → M B) s b s' :
  bind m f s = (Ok b, s') → ∃ a s1, m s = (Ok a, s1) ∧ f a s1 = (Ok b, s').
Proof.
  unfold bind. destruct (m s) as [[a|e] s1]; [eauto|discriminate].
Qed.

Lemma same_host_refl s : same_host s s.
Proof. done. Qed.

Lemma same_host_trans s1 s2 s3 :
  same_host s1 s2 → same_host s2 s3 → same_host s1 s3.
Proof. unfold same_host. intros (-> & -> & ->) (-> & -> & ->). done. Qed.

Lemma same_host_key s s' p : same_host s s' → key_of s' p = key_of s p.
Proof. intros (_ & E & _). unfold key_of, process_cwd. by rewrite E. Qed.

Lemma same_host_seen s s' p :
  same_host s s' → tree s' = tree s → seen s' p = seen s p.
Proof.
  intros (_ & C & F) T. unfold seen. by rewrite (locate_same s s'), F.
Qed.

Lemma debug_ok msg s u s' :
  debug msg s = (Ok u, s') → same_host s s' ∧ tree s' = tree s.
Proof. intros [= _ <-]. done. Qed.

(** Removing what is seen under a name without [..]. *)
Lemma fs_rm_run p s e :
  Forall (λ x, x ≠ "..") (Js.split "/" p) →
  seen s p = Some e →
  fs_rm p s
  = (Ok tt, set_tree (Fs.remove (key_of s p) (tree s)) (add_call (FsRm p) s)).
Proof.
  intros Hn. unfold seen, fs_rm, bind, modify, get. cbv beta iota.
  rewrite (locate_same s (add_call _ s)) by done.
  change (fault (add_call _ s)) with (fault s).
  destruct (locate s p) as [k e'| |] eqn:L; [|done..].
  destruct (fault s k); [done|]. intros _.
  pose proof (locate_key _ _ _ _ L) as [<- _].
  assert (locate (set_tree (Fs.remove_below k (tree (add_call (FsRm p) s)))
                           (add_call (FsRm p) s)) p = Fs.Here k e') as ->.
  { unfold locate in *. destruct (Js.falsy p); [done|].
    change (cwd_key (set_tree _ _)) with (cwd_key s).
    eapply walk_plain_inv; [done| |exact L].
    intros q Hq. by apply lookup_above_removed. }
  cbn [tree add_call set_tree]. by rewrite remove_remove_below.
Qed.

Lemma fs_rm_ok p s e u s' :
  Forall (λ x, x ≠ "..") (Js.split "/" p) →
  seen s p = Some e →
  fs_rm p s = (Ok u, s') →
  same_host s s' ∧ fault s (key_of s p) = None
  ∧ tree s' = Fs.remove (key_of s p) (tree s).
Proof.
  intros Hn Hs. rewrite (fs_rm_run _ _ _ Hn Hs). intros [= _ <-].
  by apply seen_lookup in Hs as [? _].
Qed.

Lemma fs_mkdir_eq p s :
  Path.isAbsolute p = true →
  Forall (λ x, x ≠ "..") (Js.split "/" p) →
  ∃ errno,
    fs_mkdir p s =
      match fault s (key_of s p) with
      | Some errno => (Throw (fs_error errno), add_call (FsMkdir p) s)
      | None =>
          match Fs.mkdirp (key_of s p) (tree s) with
          | Some t => (Ok tt, set_tree t (add_call (FsMkdir p) s))
          | None => (Throw (fs_error errno), add_call (FsMkdir p) s)
          end
      end.
Proof.
  intros A Hn. unfold fs_mkdir, bind, modify, get. cbv beta iota.
  assert (Js.falsy p = false) as -> by (by destruct p). rewrite A.
  change (key_of (add_call _ s) p) with (key_of s p).
  change (fault (add_call _ s)) with (fault s).
  destruct (fault s (key_of s p)); [by exists ""|].
  rewrite (key_of_plain s p A Hn), make_mkdirp by done.
  change (tree (add_call _ s)) with (tree s).
  destruct (Fs.make (tree s) [] (Js.split "/" p)) as [errno|t];
    [by exists errno|by exists ""].
Qed.

Lemma fs_mkdir_ok p s u s' :
  Path.isAbsolute p = true →
  Forall (λ x, x ≠ "..") (Js.split "/" p) →
  fs_mkdir p s = (Ok u, s') →
  same_host s s' ∧ fault s (key_of s p) = None
  ∧ Fs.mkdirp (key_of s p) (tree s) = Some (tree s').
Proof.
  intros A Hn. destruct (fs_mkdir_eq p s A Hn) as [errno ->].
  destruct (fault s (key_of s p)); [discriminate|].
  destruct (Fs.mkdirp _ _) as [t|] eqn:E; [|discriminate].
  intros [= _ <-]. done.
Qed.


Lemma fs_cp_ok src dst s u s' :
  fs_cp src dst s = (Ok u, s') →
  same_host s s'
  ∧ Fs.copy (key_of s src) (key_of s dst) (tree s) = inr (tree s').
Proof.
  unfold fs_cp, bind. rewrite fs_enter_run.
  destruct (locate s src) as [k e| |] eqn:L; [|discriminate..].
  apply locate_key in L as [-> _].
  destruct (fault s (key_of s src)); [discriminate|].
  unfold get, modify. cbv beta iota.
  destruct (locate (add_call _ s) dst); [|idtac|discriminate].
  all: change (key_of (add_call _ s) dst) with (key_of s dst);
    change (fault (add_call _ s)) with (fault s);
    change (tree (add_call _ s)) with (tree s); cbn [fst];
    (destruct (fault s (key_of s dst)); [discriminate|]);
    (destruct (Fs.copy _ _ _); [discriminate|]);
    intros [= _ <-]; done.
Qed.

Lemma directoryExists_ok dir s :
  ∃ s', directoryExists dir s = (Ok (bool_decide (seen s dir = Some Fs.EDir)), s')
        ∧ same_host s s' ∧ tree s' = tree s.
Proof.
  destruct (directoryExists_run dir s) as (s' & H & T & E & C & F & _).
  exists s'. done.
Qed.

(** ** Caching a directory *)

Lemma ancestors_of_parent (q k : Fs.Key) :
  q ∈ Fs.ancestors (removelast k) → q ∈ Fs.ancestors k.
Proof.
  rewrite !elem_of_ancestors. intros [Hq Hp]. split; [done|].
  destruct (decide (k = [])) as [->|Hk]; [done|].
  rewrite (app_removelast_last "" Hk). by apply prefix_app_r.
Qed.

Lemma mkdirp_parent_again k t1 t2 t3 :
  Fs.mkdirp k t1 = Some t2 → Fs.mkdirp (removelast k) t2 = Some t3 → t3 = t2.
Proof.
  intros H1 H2. apply map_eq. intros q.
  rewrite (mkdirp_Some _ _ _ H2). case_decide as Hq; [|done].
  apply ancestors_of_parent in Hq.
  by rewrite (mkdirp_Some _ _ _ H1), decide_True.
Qed.

Lemma copy_onto_directory ks kd t t' :
  Fs.lookup t kd = Some Fs.EDir →
  Fs.copy ks kd t = inr t' →
  Fs.lookup t ks = Some Fs.EDir ∧ ks ≠ kd ∧ ¬ ks `prefix_of` kd
  ∧ ∃ t3, Fs.mkdirp (removelast kd) t = Some t3
          ∧ t' = Fs.moved ks kd t3 ∪ <[kd := Fs.EDir]> t3.
Proof.
  intros Hd. unfold Fs.copy, Fs.check_paths. rewrite Hd.
  destruct (Fs.lookup t ks) as [e|]; [|done].
  case_decide as Hne; [done|].
  destruct e as [data|]; simpl; [done|].
  case_bool_decide as Hp; simpl; [done|].
  destruct (Fs.mkdirp (removelast kd) t) as [t3|]; [|done].
  case_bool_decide; [|done]. intros [= <-]. eauto 10.
Qed.

(** The heart of the cache: after the destination was removed if it was a
    directory, created again and filled by the copy, what is at or below
    the destination is what was at or below the source. *)
Lemma cached_contents t0 kd ks (present : bool) t2 t3 :
  Fs.well_formed t0 →
  (present = true ↔ Fs.lookup t0 kd = Some Fs.EDir) →
  Fs.mkdirp kd (if present then Fs.remove kd t0 else t0) = Some t2 →
  Fs.copy ks kd t2 = inr t3 →
  Fs.lookup t3 kd = Some Fs.EDir
  ∧ ∀ r, Fs.lookup t3 (kd ++ r) = Fs.lookup t0 (ks ++ r).
Proof.
  intros Hwf Hpresent Hmk Hcp.
  pose proof (mkdirp_Some _ _ _ Hmk) as Hm2.
  apply copy_onto_directory in Hcp as (Hsrc & Hne & Hnp & t' & Hmk' & ->);
    [|by eapply lookup_after_mkdirp].
  rewrite (mkdirp_parent_again _ _ _ _ Hmk Hmk'). clear t' Hmk'.
  assert (ks ≠ []) as Hks by (intros ->; apply Hnp, prefix_nil).
  rewrite lookup_not_root in Hsrc by done.
  assert (t2 !! (ks ++ []) = Some Fs.EDir) as Hsrc' by (by rewrite app_nil_r).
  assert (∀ q, ¬ kd `prefix_of` q → ¬ q `prefix_of` kd → t2 !! q = t0 !! q)
    as Hfar.
  { intros q H1 H2. rewrite Hm2, decide_False.
    - destruct present; [|done]. by rewrite lookup_remove, decide_False.
    - rewrite elem_of_ancestors. tauto. }
  assert (∀ r, r ≠ [] → t2 !! (kd ++ r) = None) as Hfresh.
  { intros r Hr. rewrite Hm2, decide_False.
    - destruct present eqn:Ep.
      + rewrite lookup_remove, decide_True; [done|]. by apply prefix_app_r.
      + destruct (t0 !! (kd ++ r)) as [e|] eqn:E; [|done].
        apply well_formed_above in E; [|done..].
        apply Hpresent in E. done.
    - rewrite elem_of_ancestors. intros [_ Hp]. apply prefix_length in Hp.
      rewrite length_app in Hp. destruct r; [done|simpl in Hp; lia]. }
  assert (¬ kd `prefix_of` ks) as Hnp'.
  { intros [r ->]. destruct r as [|x r]; [by rewrite app_nil_r in Hne|].
    rewrite Hfresh in Hsrc; done. }
  assert (∀ r, t2 !! (ks ++ r) = t0 !! (ks ++ r)) as Hsame.
  { intros r. apply Hfar.
    - intros Hp. destruct (prefix_weak_total kd ks (ks ++ r)); auto.
      by apply prefix_app_r.
    - intros Hp. by apply prefix_app_l in Hp. }
  assert (Fs.lookup (Fs.moved ks kd t2 ∪ <[kd := Fs.EDir]> t2) kd
          = Some Fs.EDir) as Hdir.
  { destruct kd as [|x kd]; [done|]. simpl.
    apply lookup_union_Some_l.
    apply (lookup_moved ks (x :: kd) t2 [] Fs.EDir) in Hsrc' as Hmoved.
    by rewrite app_nil_r in Hmoved. }
  split; [done|].
  intros r. destruct (decide (r = [])) as [->|Hr].
  - rewrite !app_nil_r. rewrite (lookup_not_root t0) by done.
    by rewrite <- (app_nil_r ks), <- Hsame, app_nil_r, Hsrc.
  - rewrite !lookup_below by done. rewrite <- Hsame.
    destruct (t2 !! (ks ++ r)) as [e|] eqn:E.
    + apply lookup_union_Some_l. by apply lookup_moved.
    + rewrite lookup_union_r by (by apply lookup_moved_None).
      rewrite lookup_insert_ne; [by apply Hfresh|].
      intros Heq. rewrite <- (app_nil_r kd) in Heq at 1.
      by apply app_inv_head in Heq.
Qed.

Lemma remove_well_formed k t :
  Fs.well_formed t → Fs.well_formed (Fs.remove k t).
Proof.
  intros Hwf q x e H. rewrite lookup_remove in H.
  case_decide as Hp; [done|]. apply Hwf in H.
  destruct (decide (q = [])) as [->|Hq]; [done|].
  rewrite lookup_not_root in * by done.
  rewrite lookup_remove, decide_False; [done|].
  intros Hp'. by apply Hp, prefix_app_r.
Qed.

Lemma mkdirp_well_formed k t t' :
  Fs.well_formed t → Fs.mkdirp k t = Some t' → Fs.well_formed t'.
Proof.
  intros Hwf Hmk q x e H.
  pose proof (mkdirp_Some _ _ _ Hmk) as Hm. rewrite Hm in H.
  destruct (decide (q = [])) as [->|Hq]; [done|].
  rewrite lookup_not_root, Hm by done.
  destruct (decide (q ∈ Fs.ancestors k)) as [Hin|Hin]; [done|].
  destruct (decide (q ++ [x] ∈ Fs.ancestors k)) as [Hin'|Hin'].
  - exfalso. apply Hin. apply elem_of_ancestors in Hin' as [_ Hp].
    apply elem_of_ancestors. split; [done|]. by apply prefix_app_l in Hp.
  - apply Hwf in H. by rewrite lookup_not_root in H.
Qed.

Lemma lookup_moved_inv src dst t k e :
  Fs.moved src dst t !! k = Some e →
  ∃ r, k = dst ++ r ∧ t !! (src ++ r) = Some e.
Proof.
  unfold Fs.moved. intros H%elem_of_list_to_map_2.
  apply list_elem_of_omap in H as ([k0 e'] & Hin & Hg). simpl in Hg.
  destruct (Fs.rebase src dst k0) as [q|] eqn:R; simplify_eq/=.
  apply rebase_Some in R as (r & -> & ->).
  apply elem_of_map_to_list in Hin. eauto.
Qed.

Lemma check_paths_source src dst t e :
  Fs.check_paths src dst t = inr e → Fs.lookup t src = Some e ∧ src ≠ [].
Proof.
  unfold Fs.check_paths. destruct (Fs.lookup t src) as [e0|] eqn:L; [|done].
  intros H. assert (e0 = e) as ->.
  { destruct (Fs.lookup t dst); repeat case_match; by simplify_eq. }
  split; [done|]. intros ->. simpl in L. injection L as <-.
  rewrite bool_decide_eq_true_2 in H by apply prefix_nil. simpl in H.
  destruct (Fs.lookup t dst) as [d|]; [|done].
  case_decide; [done|]. by destruct d.
Qed.

Lemma copy_well_formed src dst t t' :
  Fs.well_formed t → Fs.copy src dst t = inr t' → Fs.well_formed t'.
Proof.
  intros Hwf. unfold Fs.copy.
  destruct (Fs.check_paths src dst t) as [|e] eqn:Hck; [done|].
  apply check_paths_source in Hck as [_ Hsrc].
  destruct (Fs.mkdirp (removelast dst) t) as [t1|] eqn:Hmk; [|done].
  case_bool_decide as Hcompat; [|done]. intros [= <-].
  pose proof (mkdirp_well_formed _ _ _ Hwf Hmk) as Hwf1.
  pose proof (lookup_after_mkdirp _ _ _ Hmk) as Hparent.
  set (m := Fs.moved src dst t1) in *.
  set (base := if Fs.is_dir e then <[dst:=Fs.EDir]> t1 else t1).
  assert (∀ q, q ≠ [] → Fs.lookup t1 q = Some Fs.EDir →
               (m ∪ base) !! q = Some Fs.EDir) as Hkeep.
  { intros q Hq Hd. rewrite lookup_not_root in Hd by done.
    destruct (m !! q) as [e1|] eqn:Em.
    - apply lookup_union_Some_l. pose proof (Hcompat _ _ Em) as Hc.
      simpl in Hc. rewrite Hd in Hc. by destruct e1.
    - rewrite lookup_union_r by done. subst base.
      destruct (Fs.is_dir e); [|done].
      destruct (decide (dst = q)) as [->|Hne];
        [by rewrite lookup_insert_eq|by rewrite lookup_insert_ne]. }
  intros q x e0 H.
  destruct (decide (q = [])) as [->|Hq]; [done|].
  rewrite lookup_not_root by done.
  assert (q ++ [x] = dst → (m ∪ base) !! q = Some Fs.EDir) as Hdst.
  { intros <-. rewrite removelast_last in Hparent. by apply Hkeep. }
  apply lookup_union_Some_raw in H as [H|[Hm H]].
  - apply lookup_moved_inv in H as (r & Hk & Hr).
    destruct r as [|x' r _] using rev_ind.
    + rewrite app_nil_r in Hk. by apply Hdst.
    + rewrite !(assoc_L (++)) in *.
      apply app_inj_tail in Hk as [-> ->].
      apply Hwf1 in Hr. rewrite lookup_not_root in Hr by (by destruct src).
      apply lookup_union_Some_l. by apply lookup_moved.
  - destruct (decide (q ++ [x] = dst)) as [Hd|Hd]; [by apply Hdst|].
    apply Hkeep; [done|]. apply (Hwf1 q x e0).
    subst base. destruct (Fs.is_dir e); [|done].
    by rewrite lookup_insert_ne in H.
Qed.

Section RoundTrip.

Context `{agent : BuildAgent}.
Variable semver_clean : string → option string.

Lemma cacheToolDirectory_ok srcDir tool version s p s1 :
  cacheToolDirectory semver_clean srcDir tool version s = (Ok p, s1) →
  Js.falsy tool = false ∧ Js.falsy version = false
  ∧ (∃ root, (cacheDir s).1 = Ok root
             ∧ p = Path.join [root; tool; clean_or_raw semver_clean version])
  ∧ same_host s s1
  ∧ fault s (key_of s p) = None
  ∧ ∃ t2,
      Fs.mkdirp (key_of s p)
        (if bool_decide (seen s p = Some Fs.EDir)
         then Fs.remove (key_of s p) (tree s) else tree s) = Some t2
      ∧ Fs.copy (key_of s srcDir) (key_of s p) t2 = inr (tree s1).
Proof.
  unfold cacheToolDirectory.
  destruct (Js.falsy tool); [discriminate|].
  destruct (Js.falsy version); [discriminate|].
  destruct (Js.falsy srcDir); [discriminate|].
  intros (root & sa & Hroot & H)%bind_ok.
  pose proof Hroot as Hlog. rewrite cacheDir_run in Hlog.
  injection Hlog as Hrootv Hsa.
  assert (same_host s sa ∧ tree sa = tree s) as [Ha Ta] by (by subst sa).
  destruct (cacheDir_is_truthy _ _ _ Hroot) as [Hr _]. rewrite Hr in H.
  assert (Path.isAbsolute root = true) as Hra
    by (rewrite <- Hrootv; apply resolve_is_absolute).
  set (dest := Path.join [root; tool; clean_or_raw semver_clean version]) in *.
  pose proof (join_absolute root [tool; clean_or_raw semver_clean version] Hra)
    as Habs.
  pose proof (names_of_join root [tool; clean_or_raw semver_clean version] Hra)
    as Hn.
  fold dest in Habs, Hn.
  apply bind_ok in H as (present & sb & Hpresent & H).
  destruct (directoryExists_ok dest sa) as (sb' & Hrun & Hb & Tb).
  rewrite Hrun in Hpresent. injection Hpresent as <- <-.
  rewrite (same_host_seen _ _ _ Ha Ta) in H.
  apply bind_ok in H as (u1 & sc & Hrm & H).
  apply bind_ok in H as (u2 & sd & Hd%debug_ok & H).
  apply bind_ok in H as (u3 & se & He & H).
  apply fs_mkdir_ok in He; [|done..].
  apply bind_ok in H as (u4 & sf & Hf%fs_cp_ok & H).
  apply bind_ok in H as (u5 & sg & Hg%debug_ok & H).
  injection H as <- <-.
  destruct Hd as [Hd Td], He as (He & Fe & Te), Hf as [Hf Tf], Hg as [Hg Tg].
  assert (same_host s sc
          ∧ tree sc = (if bool_decide (seen s dest = Some Fs.EDir)
                       then Fs.remove (key_of s dest) (tree s) else tree s))
    as [Hc Tc].
  { destruct (bool_decide_reflect (seen s dest = Some Fs.EDir)) as [Hseen|Hseen].
    - apply bind_ok in Hrm as (u0 & sb1 & [H1 T1]%debug_ok & Hrm).
      assert (same_host s sb1) as Hsb1 by eauto using same_host_trans.
      apply (fs_rm_ok _ _ Fs.EDir) in Hrm as (H2 & _ & T2); [|done|].
      + split; [eauto using same_host_trans|].
        rewrite T2, T1, Tb, Ta. by rewrite (same_host_key s sb1).
      + rewrite (same_host_seen s sb1); [done..|]. by rewrite T1, Tb, Ta.
    - injection Hrm as _ <-. split; [eauto using same_host_trans|].
      by rewrite Tb, Ta. }
  assert (same_host s sd) as Hsd by eauto using same_host_trans.
  assert (same_host s se) as Hse by eauto using same_host_trans.
  rewrite (same_host_key s sd) in Fe, Te by done.
  rewrite !(same_host_key s se) in Tf by done.
  rewrite Td, Tc in Te. rewrite <- Tg in Tf.
  destruct Hsd as (_ & _ & Fsd). rewrite Fsd in Fe.
  split; [done|]. split; [done|]. split.
  { exists root. by rewrite Hroot. }
  split; [eauto using same_host_trans|]. split; [done|]. eauto.
Qed.

Lemma cached_well_formed srcDir tool version s p s1 :
  Fs.well_formed (tree s) →
  cacheToolDirectory semver_clean srcDir tool version s = (Ok p, s1) →
  Fs.well_formed (tree s1).
Proof.
  intros Hwf (_ & _ & _ & _ & _ & t2 & Hmk & Hcp)%cacheToolDirectory_ok.
  eapply copy_well_formed; [|exact Hcp].
  eapply mkdirp_well_formed; [|exact Hmk].
  destruct (bool_decide _); [by apply remove_well_formed|done].
Qed.

(** C4.  When [cacheToolDirectory] succeeds on a well-formed file system
    and returns [p], then [p] is an absolute path, [findLocalTool] with the
    same tool and version returns [p], and what is found at or below [p]
    after caching is what was found at or below the source directory
    before. *)
Theorem C4_cache_round_trip srcDir tool version s p s1 :
  Fs.well_formed (tree s) →
  cacheToolDirectory semver_clean srcDir tool version s = (Ok p, s1) →
  (findLocalTool semver_clean tool version s1).1 = Ok (Some p)
  ∧ Path.isAbsolute p = true
  ∧ ∀ r, Fs.lookup (tree s1) (key_of s1 p ++ r)
         = Fs.lookup (tree s) (key_of s srcDir ++ r).
Proof.
  intros Hwf Hrun.
  pose proof (cached_well_formed _ _ _ _ _ _ Hwf Hrun) as Hwf1.
  apply cacheToolDirectory_ok
    in Hrun as (Ht & Hv & (root & Hroot & ->) & Hs1 & Hfault & t2 & Hmk & Hcp).
  set (dest := Path.join [root; tool; clean_or_raw semver_clean version]) in *.
  rewrite cacheDir_run in Hroot. simpl in Hroot. injection Hroot as Hroot.
  assert (Path.isAbsolute dest = true) as Habs.
  { apply join_absolute. subst root. apply resolve_is_absolute. }
  destruct (cached_contents (tree s) (key_of s dest) (key_of s srcDir)
              (bool_decide (seen s dest = Some Fs.EDir)) t2 (tree s1))
    as [Hdir Hsame]; [done| |done|done|].
  { rewrite bool_decide_eq_true. apply seen_joined; [done| |done].
    subst root. apply resolve_is_absolute. }
  rewrite (same_host_key _ _ _ Hs1).
  split; [|done].
  unfold findLocalTool. rewrite Ht, Hv.
  unfold bind at 1. rewrite cacheDir_run.
  destruct Hs1 as (Es & Cs & Fs1).
  assert (process_cwd s1 = process_cwd s) as -> by (unfold process_cwd; by rewrite Cs).
  rewrite Es, Hroot.
  assert (Js.falsy root = false) as ->.
  { apply absolute_is_truthy. subst root. apply resolve_is_absolute. }
  fold dest. unfold bind at 1, info at 1, modify at 1.
  set (sa := add_log LInfo _ (add_log LDebug _ s1)).
  assert (same_host s sa ∧ tree sa = tree s1) as [Ha Ta] by done.
  unfold bind at 1.
  destruct (directoryExists_ok dest sa) as (sb & -> & Hb & Tb).
  rewrite bool_decide_eq_true_2; [done|].
  apply seen_plain; [by rewrite Ta|done| | |].
  - subst root. apply names_of_join, resolve_is_absolute.
  - rewrite (same_host_key _ _ _ Ha). by destruct Ha as (_ & _ & ->).
  - by rewrite (same_host_key _ _ _ Ha), Ta.
Qed.

End RoundTrip.

Lemma well_formedb_sound t : Fs.well_formedb t = true → Fs.well_formed t.
Proof.
  unfold Fs.well_formedb. intros H%bool_decide_eq_true k x e Hk.
  apply H in Hk. by rewrite removelast_last in Hk.
Qed.

Lemma C4_cache_round_trip_witness :
  let s := Sample.state {[ "HOST_TOOL_CACHE" := "/opt/cache" ]} in
  let cached := cacheToolDirectory (agent := Sample.agent) Sample.clean
               "dl" "tool" "v1.2.3" s in
  Fs.well_formed (tree s)
  ∧ cached = (Ok "/opt/cache/tool/1.2.3", cached.2)
  ∧ (findLocalTool (agent := Sample.agent) Sample.clean "tool" "v1.2.3" cached.2).1
      = Ok (Some "/opt/cache/tool/1.2.3")
  ∧ Path.isAbsolute "/opt/cache/tool/1.2.3" = true
  ∧ ∀ r, Fs.lookup (tree cached.2) (key_of cached.2 "/opt/cache/tool/1.2.3" ++ r)
         = Fs.lookup (tree s) (key_of s "dl" ++ r).
Proof.
  intros s cached.
  assert (Fs.well_formed (tree s)) as Hwf.
  { apply well_formedb_sound. vm_compute. reflexivity. }
  assert (cached = (Ok "/opt/cache/tool/1.2.3", cached.2)) as Hrun.
  { rewrite (surjective_pairing cached) at 1.
    apply (f_equal (λ x, (x, cached.2))). vm_compute. reflexivity. }
  split; [exact Hwf|]. split; [exact Hrun|].
  exact (C4_cache_round_trip (agent := Sample.agent) Sample.clean
           "dl" "tool" "v1.2.3" s "/opt/cache/tool/1.2.3" cached.2 Hwf Hrun).
Defined.

Example cached_file_is_the_source_file :
  let s := Sample.state {[ "HOST_TOOL_CACHE" := "/opt/cache" ]} in
  let cached := cacheToolDirectory (agent := Sample.agent) Sample.clean
               "dl" "tool" "v1.2.3" s in
  tree cached.2 !! ["opt"; "cache"; "tool"; "1.2.3"; "lib"; "a.txt"]
  = Some (Fs.EFile "a").
Proof. vm_compute. reflexivity. Qed.

(** Caching again replaces what was cached: nothing of the first copy is
    left. *)
Example caching_twice_keeps_the_second_copy :
  let s := Sample.state {[ "HOST_TOOL_CACHE" := "/opt/cache" ]} in
  let first := cacheToolDirectory (agent := Sample.agent) Sample.clean
                 "dl" "tool" "1.2.3" s in
  let second := cacheToolDirectory (agent := Sample.agent) Sample.clean
                  "dl/lib" "tool" "1.2.3" first.2 in
  second.1 = Ok "/opt/cache/tool/1.2.3"
  ∧ tree second.2 !! ["opt"; "cache"; "tool"; "1.2.3"; "a.txt"] = Some (Fs.EFile "a")
  ∧ tree second.2 !! ["opt"; "cache"; "tool"; "1.2.3"; "tool.dll"] = None.
Proof. repeat split; vm_compute; reflexivity. Qed.

(** * Further properties of the class *)

(** ** Inputs and variables *)

(** [getVariable] throws in one case only: the name is that of a member of
    [Object.prototype] and no variable of that name is set; nothing is
    logged then.  In every other case it changes nothing but the log, and
    what it returns is trimmed already, and is empty exactly when the
    variable is unset, empty or blank. *)
Theorem getVariable_trimmed name s :
  if bool_decide (name ∈ Js.object_members ∧ env s !! name = None)
  then ∃ e, getVariable name s = (Throw e, s)
  else ∃ v, getVariable name s
              = (Ok v, add_log LDebug ("getVariable - " +:+ name +:+ ": " +:+ v) s)
            ∧ Js.trim v = v
            ∧ Js.falsy v = Js.blank (default "" (env s !! name)).
Proof.
  case_bool_decide as H.
  - destruct H as [Hm Hn]. unfold getVariable, bind, get, process_env.
    cbv beta iota. rewrite Hn, bool_decide_eq_true_2 by done. by eexists.
  - exists (Js.trim (default "" (env s !! name))).
    split; [|split; [apply trim_idem|apply falsy_trim]].
    unfold getVariable, bind, get, process_env. cbv beta iota.
    destruct (env s !! name) as [v|] eqn:E.
    + unfold debug, modify, ret. simpl. by rewrite or_else_empty, trim_idem.
    + rewrite bool_decide_eq_false_2 by (intros Hm; by apply H).
      unfold debug, modify, ret. simpl. by rewrite trim_idem.
Qed.

Lemma lower_or_false x :
  bool_decide (Js.toLowerCase (Js.or_else x "false") = "true")
  = bool_decide (Js.toLowerCase x = "true").
Proof. by destruct x. Qed.

(** [getBooleanInput] is [true] exactly when the trimmed value of the
    input, in lower case, is [true]; an unset or blank input gives [false],
    unless the input is required, in which case the call throws. *)
Theorem getBooleanInput_true_only input required s :
  (getBooleanInput input required s).1 =
    if required && Js.blank (input_value s input)
    then Throw (Error ("Input required and not supplied: " +:+ input_prop input))
    else Ok (bool_decide (Js.toLowerCase (Js.trim (input_value s input)) = "true")).
Proof.
  unfold getBooleanInput, bind. rewrite getInput_run. simpl.
  destruct (required && Js.blank (input_value s input)); simpl; [done|].
  by rewrite lower_or_false.
Qed.

Example boolean_input_ignores_case :
  (getBooleanInput "dry run" false
     (Sample.state {[ "INPUT_DRY_RUN" := " TrUe " ]})).1 = Ok true
  ∧ (getBooleanInput "dry run" false
       (Sample.state {[ "INPUT_DRY_RUN" := "yes" ]})).1 = Ok false
  ∧ (getBooleanInput "dry run" false (Sample.state ∅)).1 = Ok false.
Proof. repeat split; reflexivity. Qed.

Lemma key_char_idem c :
  Js.upper_char
    (if Ascii.eqb (Js.upper_char (if Ascii.eqb c " " then "_"%char else c)) " "
     then "_"%char
     else Js.upper_char (if Ascii.eqb c " " then "_"%char else c))
  = Js.upper_char (if Ascii.eqb c " " then "_"%char else c).
Proof. destruct c as [[] [] [] [] [] [] [] []]; reflexivity. Qed.

Lemma input_prop_idem input : input_prop (input_prop input) = input_prop input.
Proof.
  unfold input_prop, Js.toUpperCase, Js.spaces_to_underscores.
  induction input as [|c input IH]; [done|].
  cbn [Js.map_chars]. f_equal; [apply key_char_idem|apply IH].
Qed.

(** The name of an input may be given as it is written in the task
    ([my input]) or as the variable spells it ([MY_INPUT]): [getInput] reads
    the same variable, returns the same value and logs the same line. *)
Theorem getInput_key_is_normalised input required s :
  getInput (Js.toUpperCase (Js.spaces_to_underscores input)) required s
  = getInput input required s.
Proof.
  change (Js.toUpperCase (Js.spaces_to_underscores input)) with (input_prop input).
  rewrite !getInput_run. unfold input_value.
  by rewrite input_prop_idem.
Qed.

(** ** Existence checks *)

(** A path is never reported both as a directory and as a file. *)
Theorem directory_and_file_exclude_each_other p s :
  ∃ d f, (directoryExists p s).1 = Ok d ∧ (fileExists p s).1 = Ok f
         ∧ d && f = false.
Proof.
  destruct (directoryExists_run p s) as (s1 & -> & _).
  destruct (fileExists_run p s) as (s2 & -> & _).
  eexists _, _. split; [done|]. split; [done|].
  unfold is_match. case_bool_decide as H; [by rewrite H|done].
Qed.

(** ** Command lines *)

Lemma join_unquoted l1 a b l2 :
  Js.join " " (l1 ++ (a +:+ " " +:+ b) :: l2) = Js.join " " (l1 ++ a :: b :: l2).
Proof.
  induction l1 as [|x l1 IH].
  - simpl app. rewrite join_cons_cons.
    destruct l2 as [|y l2]; [done|].
    by rewrite !join_cons_cons, !app_assoc_s.
  - destruct l1 as [|x' l1].
    + simpl app in *. by rewrite !join_cons_cons, IH.
    + simpl app in *. by rewrite !join_cons_cons, IH.
Qed.

(** [exec] does not quote its arguments: an argument with a space in it
    runs the same command line, with the same result, as the two arguments
    on either side of the space. *)
Theorem exec_does_not_quote cmd l1 a b l2 s :
  exec cmd (l1 ++ (a +:+ " " +:+ b) :: l2) s = exec cmd (l1 ++ a :: b :: l2) s.
Proof. unfold exec. by rewrite join_unquoted. Qed.

(** ** The search path *)

Lemma env_text_Some v : env_text (Some v) = v.
Proof. done. Qed.

Lemma addPath_state p s :
  platform (addPath p s).2 = platform s
  ∧ env (addPath p s).2 !! path_variable s
    = Some (p +:+ path_delimiter s +:+ env_text (env s !! path_variable s))
  ∧ env (addPath p s).2 !! "Path"
    = Some (p +:+ path_delimiter s +:+ env_text (env s !! path_variable s)).
Proof.
  rewrite addPath_run. cbn [snd].
  split; [done|]. split.
  - cbn [env add_log set_env]. unfold path_variable. case_decide.
    + by rewrite lookup_insert_eq.
    + by rewrite lookup_insert_ne, lookup_insert_eq.
  - cbn [env add_log set_env]. by rewrite lookup_insert_eq.
Qed.

(** Two calls of [addPath] put the second path in front of the first: the
    variable ends as [b], [a] and the text of the old value, and the
    locator searches in that order. *)
Theorem addPath_twice a b s :
  let s2 := (addPath b (addPath a s).2).2 in
  let value := b +:+ path_delimiter s +:+ a +:+ path_delimiter s
               +:+ env_text (env s !! path_variable s) in
  env s2 !! path_variable s = Some value
  ∧ env s2 !! "Path" = Some value
  ∧ search_path s2 =
      Some (Js.split (path_delimiter s) b ++ Js.split (path_delimiter s) a
            ++ Js.split (path_delimiter s) (env_text (env s !! path_variable s))).
Proof.
  intros s2 value.
  destruct (addPath_state a s) as (P1 & E1 & _).
  destruct (addPath_state b (addPath a s).2) as (P2 & E2 & E2').
  fold s2 in P2, E2, E2'.
  assert (path_variable (addPath a s).2 = path_variable s) as V1
    by (unfold path_variable; by rewrite P1).
  assert (path_delimiter (addPath a s).2 = path_delimiter s) as D1
    by (unfold path_delimiter; by rewrite P1).
  rewrite V1, D1, E1 in E2, E2'. rewrite env_text_Some in E2, E2'.
  split; [done|]. split; [done|].
  unfold search_path.
  assert (path_variable s2 = path_variable s) as ->
    by (unfold path_variable; by rewrite P2, P1).
  assert (path_delimiter s2 = path_delimiter s) as ->
    by (unfold path_delimiter; by rewrite P2, P1).
  rewrite E2. cbn [fmap option_fmap option_map].
  by rewrite !split_delimiter.
Qed.

(** ** Variables that hold a path *)

Lemma getVariableAsPath_run name s :
  name ∉ Js.object_members →
  let v := Js.trim (default "" (env s !! name)) in
  getVariableAsPath name s =
    (Ok (Path.resolve (process_cwd s) [Path.normalize v]),
     add_log LDebug ("getVariable - " +:+ name +:+ ": " +:+ v) s).
Proof. intros H. unfold getVariableAsPath, bind. by rewrite getVariable_run. Qed.

(** On a platform other than Windows, and for a name that is not that of
    a member of [Object.prototype], [getVariableAsPath] always returns a
    path, even for a variable that is not set.  The path is absolute and in
    normal form: it has no empty segment and no [.] or [..], it is written
    as its segments with a slash before each, and [path.resolve] leaves it
    as it is. *)
Theorem getVariableAsPath_normal_form name s :
  name ∉ Js.object_members →
  platform s ≠ "win32" →
  ∃ p, (getVariableAsPath name s).1 = Ok p
       ∧ Path.isAbsolute p = true
       ∧ Forall (λ x, normal_segment x = true) (key_of s p)
       ∧ p = "/" +:+ Js.join "/" (key_of s p)
       ∧ Path.resolve (process_cwd s) [p] = p.
Proof.
  intros Hown _. unfold getVariableAsPath, bind. rewrite getVariable_run by done.
  set (v := Path.normalize (Js.trim (default "" (env s !! name)))).
  exists (Path.resolve (process_cwd s) [v]).
  split; [done|].
  split; [apply resolve_is_absolute|]. split; [apply key_normal|].
  split; [|apply resolve_idem].
  by rewrite key_of_resolve, <- resolve_key.
Qed.

Lemma getVariableAsPath_normal_form_witness :
  let s := Sample.state {[ "HOST_TEMP" := " tmp/../out/ " ]} in
  ("HOST_TEMP" ∉ Js.object_members)
  ∧ platform s ≠ "win32"
  ∧ (getVariableAsPath "HOST_TEMP" s).1 = Ok "/work/out"
  ∧ ∃ p, (getVariableAsPath "HOST_TEMP" s).1 = Ok p
         ∧ Path.isAbsolute p = true
         ∧ Forall (λ x, normal_segment x = true) (key_of s p)
         ∧ p = "/" +:+ Js.join "/" (key_of s p)
         ∧ Path.resolve (process_cwd s) [p] = p.
Proof.
  intros s.
  assert ("HOST_TEMP" ∉ Js.object_members) as Hown
    by (apply (bool_decide_unpack _); vm_compute; exact I).
  assert (platform s ≠ "win32") as Hp by discriminate.
  split; [exact Hown|]. split; [exact Hp|]. split; [reflexivity|].
  exact (getVariableAsPath_normal_form "HOST_TEMP" s Hown Hp).
Defined.

(** ** The source directory *)

Lemma no_char_replaced d e s :
  e ≠ d →
  no_char d (Js.map_chars (λ c, if Ascii.eqb c d then e else c) s) = true.
Proof.
  intros Hne. induction s as [|c s IH]; [done|].
  cbn [Js.map_chars no_char]. rewrite IH, andb_true_r.
  destruct (Ascii.eqb c d) eqn:E; apply negb_true_iff.
  - by apply Ascii.eqb_neq.
  - done.
Qed.

Lemma absolute_after_replacement p :
  Path.isAbsolute p = true →
  Path.isAbsolute (Js.backslashes_to_slashes p) = true.
Proof.
  destruct p as [|c p]; [done|]. unfold Path.isAbsolute.
  cbn [Js.startsWith Js.backslashes_to_slashes Js.map_chars].
  rewrite !andb_true_r. intros H%Ascii.eqb_eq. by subst c.
Qed.

(** [sourceDir] always returns an absolute path, written with forward
    slashes only. *)
Theorem sourceDir_forward_slashes `{agent : BuildAgent} s :
  ∃ p, (sourceDir s).1 = Ok p
       ∧ Path.isAbsolute p = true
       ∧ no_char "092" p = true.
Proof.
  unfold sourceDir, bind.
  rewrite getVariableAsPath_run by apply variables_are_own.
  eexists. split; [reflexivity|].
  split; [|by apply no_char_replaced].
  apply absolute_after_replacement, resolve_is_absolute.
Qed.

(** ** Removing a directory *)



(** ** Looking a tool up *)

Section Lookup.

Context `{agent : BuildAgent}.
Variable semver_clean : string → option string.

Lemma findLocalTool_run c t c' v s :
  let root := Path.resolve (process_cwd s)
    [Path.normalize (Js.trim (default "" (env s !! cacheDirVariable)))] in
  let dest := Path.join [root; String c t;
                         clean_or_raw semver_clean (String c' v)] in
  ∃ s', findLocalTool semver_clean (String c t) (String c' v) s
        = (Ok (if bool_decide (seen s dest = Some Fs.EDir)
               then Some dest else None), s')
        ∧ tree s' = tree s ∧ env s' = env s.
Proof.
  intros root dest. unfold findLocalTool. cbn [Js.falsy].
  unfold bind at 1. rewrite cacheDir_run. fold root.
  assert (Js.falsy root = false) as ->
    by apply absolute_is_truthy, resolve_is_absolute.
  fold dest. unfold bind at 1, info at 1, modify at 1.
  set (sa := add_log LInfo _ (add_log LDebug _ s)).
  assert (same_host s sa ∧ tree sa = tree s) as [Ha Ta] by done.
  unfold bind at 1.
  destruct (directoryExists_ok dest sa) as (sb & -> & (Eb & _) & Tb).
  rewrite (same_host_seen _ _ _ Ha Ta).
  destruct Ha as (Ea & _).
  destruct (bool_decide (seen s dest = Some Fs.EDir)); simpl;
    eexists; (split; [reflexivity|]); simpl; by rewrite ?Tb, ?Ta, ?Eb, ?Ea.
Qed.

(** [findLocalTool] only reads: the environment and the file system are
    left as they were.  With a tool and a version, its answer is the path
    of the cache entry, the root of the cache joined with the tool and the
    cleaned version, when a directory is seen at exactly that path, and
    [null] otherwise. *)
Theorem findLocalTool_exact_lookup c t c' v s :
  ∃ root,
    (cacheDir s).1 = Ok root
    ∧ (findLocalTool semver_clean (String c t) (String c' v) s).1 =
        Ok (if bool_decide
                 (seen s (Path.join [root; String c t;
                                     clean_or_raw semver_clean (String c' v)])
                  = Some Fs.EDir)
            then Some (Path.join [root; String c t;
                                  clean_or_raw semver_clean (String c' v)])
            else None)
    ∧ tree (findLocalTool semver_clean (String c t) (String c' v) s).2 = tree s
    ∧ env (findLocalTool semver_clean (String c t) (String c' v) s).2 = env s.
Proof.
  destruct (findLocalTool_run c t c' v s) as (s' & -> & T & E).
  eexists. split; [by rewrite cacheDir_run|]. done.
Qed.

End Lookup.

(** ** Caching again, and caching what is not there *)







Section Again.

Context `{agent : BuildAgent}.
Variable semver_clean : string → option string.

Lemma cacheToolDirectory_contents srcDir tool version s p s1 :
  Fs.well_formed (tree s) →
  cacheToolDirectory semver_clean srcDir tool version s = (Ok p, s1) →
  ∀ r, Fs.lookup (tree s1) (key_of s p ++ r)
       = Fs.lookup (tree s) (key_of s srcDir ++ r).
Proof.
  intros Hwf (_ & _ & (root & Hroot & Hp) & _ & Hfault & t2 & Hmk & Hcp)%cacheToolDirectory_ok.
  apply (cached_contents (tree s) (key_of s p) (key_of s srcDir)
           (bool_decide (seen s p = Some Fs.EDir)) t2 (tree s1));
    [done| |done|done].
  rewrite bool_decide_eq_true. subst p. apply seen_joined; [done| |done].
  rewrite cacheDir_run in Hroot. injection Hroot as <-.
  apply resolve_is_absolute.
Qed.

Lemma cached_present srcDir tool version s p s1 :
  Fs.well_formed (tree s) →
  cacheToolDirectory semver_clean srcDir tool version s = (Ok p, s1) →
  bool_decide (seen s p = Some Fs.EDir) = true
  ↔ Fs.lookup (tree s) (key_of s p) = Some Fs.EDir.
Proof.
  intros Hwf (_ & _ & (root & Hroot & Hp) & _ & Hfault & _)%cacheToolDirectory_ok.
  rewrite bool_decide_eq_true. subst p. apply seen_joined; [done| |done].
  rewrite cacheDir_run in Hroot. injection Hroot as <-.
  apply resolve_is_absolute.
Qed.

Lemma cacheToolDirectory_path srcDir tool version s p s1 :
  cacheToolDirectory semver_clean srcDir tool version s = (Ok p, s1) →
  same_host s s1
  ∧ p = Path.join
          [Path.resolve (process_cwd s)
             [Path.normalize (Js.trim (default "" (env s !! cacheDirVariable)))];
           tool; clean_or_raw semver_clean version].
Proof.
  intros (_ & _ & (root & Hroot & ->) & Hs1 & _)%cacheToolDirectory_ok.
  split; [done|]. rewrite cacheDir_run in Hroot. by injection Hroot as <-.
Qed.

(** Caching the same tool and version a second time replaces the entry:
    both calls return the same path, and what is found at or below it after
    the second call is what was at or below the second source, with nothing
    left of the first copy. *)
Theorem caching_again_replaces src1 src2 tool version s p1 s1 p2 s2 :
  Fs.well_formed (tree s) →
  cacheToolDirectory semver_clean src1 tool version s = (Ok p1, s1) →
  cacheToolDirectory semver_clean src2 tool version s1 = (Ok p2, s2) →
  p2 = p1
  ∧ ∀ r, Fs.lookup (tree s2) (key_of s p1 ++ r)
         = Fs.lookup (tree s1) (key_of s src2 ++ r).
Proof.
  intros Hwf H1 H2.
  pose proof (cached_well_formed _ _ _ _ _ _ _ Hwf H1) as Hwf1.
  destruct (cacheToolDirectory_path _ _ _ _ _ _ H1) as [Hs1 ->].
  destruct (cacheToolDirectory_path _ _ _ _ _ _ H2) as [_ Hp2].
  destruct Hs1 as (E1 & C1 & F1).
  assert (process_cwd s1 = process_cwd s) as Hcwd
    by (unfold process_cwd; by rewrite C1).
  rewrite E1, Hcwd in Hp2. split; [done|]. subst p2.
  intros r.
  assert (∀ q, key_of s q = key_of s1 q) as Hk
    by (intros q; unfold key_of; by rewrite Hcwd).
  rewrite !Hk. by apply (cacheToolDirectory_contents src2 tool version).
Qed.


End Again.

Lemma caching_again_replaces_witness :
  let again := cacheToolDirectory (agent := Sample.agent) Sample.clean
                 "dl/lib" "tool" "1.2.3" sample_cached in
  Fs.well_formed (tree sample_host)
  ∧ cacheToolDirectory (agent := Sample.agent) Sample.clean
      "dl" "tool" "1.2.3" sample_host
    = (Ok "/opt/cache/tool/1.2.3", sample_cached)
  ∧ again = (Ok "/opt/cache/tool/1.2.3", again.2)
  ∧ "/opt/cache/tool/1.2.3" = "/opt/cache/tool/1.2.3"
  ∧ ∀ r, Fs.lookup (tree again.2)
           (key_of sample_host "/opt/cache/tool/1.2.3" ++ r)
         = Fs.lookup (tree sample_cached) (key_of sample_host "dl/lib" ++ r).
Proof.
  intros again.
  assert (Fs.well_formed (tree sample_host)) as Hwf
    by (apply well_formedb_sound; vm_compute; reflexivity).
  assert (cacheToolDirectory (agent := Sample.agent) Sample.clean
            "dl" "tool" "1.2.3" sample_host
          = (Ok "/opt/cache/tool/1.2.3", sample_cached)) as H1.
  { unfold sample_cached.
    rewrite (surjective_pairing (cacheToolDirectory _ _ _ _ _)) at 1.
    apply (f_equal (λ x, (x, _))). vm_compute. reflexivity. }
  assert (again = (Ok "/opt/cache/tool/1.2.3", again.2)) as H2.
  { rewrite (surjective_pairing again) at 1.
    apply (f_equal (λ x, (x, again.2))). vm_compute. reflexivity. }
  split; [exact Hwf|]. split; [exact H1|]. split; [exact H2|].
  exact (caching_again_replaces (agent := Sample.agent) Sample.clean
           "dl" "dl/lib" "tool" "1.2.3" sample_host
           "/opt/cache/tool/1.2.3" sample_cached
           "/opt/cache/tool/1.2.3" again.2 Hwf H1 H2).
Defined.


(** ** Lists of lines *)

Lemma length_trimStart s : String.length (Js.trimStart s) ≤ String.length s.
Proof.
  induction s as [s E|s r E IH] using ws_ind; rewrite trimStart_eq, E; [done|].
  apply ws_head_length in E. lia.
Qed.

Lemma length_trimEnd s : String.length (Js.trimEnd s) ≤ String.length s.
Proof.
  destruct (trimEnd_cut s) as (u & Hs & _).
  apply (f_equal String.length) in Hs. rewrite app_length_s in Hs. lia.
Qed.

Lemma trimmed_parts x :
  Js.trim x = x → Js.ws_head x = None ∧ Js.trimEnd x = x.
Proof.
  intros H. destruct (Js.ws_head x) as [r|] eqn:E.
  - exfalso. apply (f_equal String.length) in H. unfold Js.trim in H.
    rewrite trimStart_eq, E in H. apply ws_head_length in E.
    pose proof (length_trimEnd (Js.trimStart r)).
    pose proof (length_trimStart r). lia.
  - split; [done|]. unfold Js.trim in H. by rewrite trimStart_fixed in H.
Qed.

(** No white-space character reaches across a line feed. *)
Lemma ws_head_line u v :
  u ≠ "" → Js.ws_head u = None → Js.ws_head (u +:+ Js.LF +:+ v) = None.
Proof.
  unfold Js.ws_head, Js.LF. destruct u as [|a [|b [|c u]]]; [done|..];
    intros _; rewrite ?app_cons, ?app_empty_l.
  - destruct (Ascii.is_space a); [done|]. intros _.
    change (nat_of_ascii "010") with 10.
    rewrite andb_false_r. destruct v as [|c v]; [done|].
    unfold Js.ws3. cbn [Nat.eqb]. by rewrite !andb_false_r.
  - destruct (Ascii.is_space a); [done|].
    destruct (_ && _); [done|]. intros _.
    change (nat_of_ascii "010") with 10.
    unfold Js.ws3. cbn [Nat.eqb Nat.leb]. by rewrite !andb_false_r.
  - destruct (Ascii.is_space a); [done|].
    destruct (_ && _); [done|]. by destruct (Js.ws3 _ _ _).
Qed.

Lemma blank_line u v : Js.blank (u +:+ Js.LF +:+ v) = true → Js.blank v = true.
Proof.
  unfold Js.blank.
  induction u as [u E|u r E IH] using ws_ind.
  - destruct u as [|a u].
    + rewrite app_empty_l, trimStart_eq. done.
    + rewrite trimStart_fixed by (by apply ws_head_line). by rewrite app_cons.
  - rewrite trimStart_eq, (ws_head_app _ _ _ E). exact IH.
Qed.

Lemma trimEnd_line a b :
  b ≠ "" → Js.trimEnd b = b → Js.trimEnd (a +:+ Js.LF +:+ b) = a +:+ Js.LF +:+ b.
Proof.
  intros Hb Hend.
  assert (∀ u, Js.blank (u +:+ Js.LF +:+ b) = false) as Hnb.
  { intros u. destruct (Js.blank (u +:+ Js.LF +:+ b)) eqn:B; [|done].
    apply blank_line in B. rewrite <- falsy_trimEnd, Hend in B.
    by destruct b. }
  induction a as [|c a IH].
  - specialize (Hnb ""). rewrite app_empty_l in *.
    unfold Js.LF in *. rewrite app_cons, app_empty_l in *.
    cbn [Js.trimEnd]. by rewrite Hnb, Hend.
  - rewrite app_cons. cbn [Js.trimEnd]. rewrite IH.
    specialize (Hnb (String c a)). rewrite app_cons in Hnb. by rewrite Hnb.
Qed.

Lemma join_not_empty sep x l : x ≠ "" → Js.join sep (x :: l) ≠ "".
Proof. destruct x; [done|]. by destruct l. Qed.

Lemma trimEnd_join l :
  l ≠ [] → Forall (λ x, x ≠ "" ∧ Js.trim x = x) l →
  Js.trimEnd (Js.join Js.LF l) = Js.join Js.LF l.
Proof.
  induction l as [|x l IH]; [done|]. intros _ H.
  apply Forall_cons in H as [[Hx Tx] Hl].
  destruct l as [|y l]; [by apply trimmed_parts|].
  rewrite join_cons_cons.
  apply trimEnd_line; [|by apply IH].
  apply Forall_cons in Hl as [[Hy _] _]. by apply join_not_empty.
Qed.

Lemma trim_join l :
  l ≠ [] → Forall (λ x, x ≠ "" ∧ Js.trim x = x) l →
  Js.trim (Js.join Js.LF l) = Js.join Js.LF l.
Proof.
  intros Hne Hl. unfold Js.trim.
  assert (Js.trimStart (Js.join Js.LF l) = Js.join Js.LF l) as ->;
    [|by apply trimEnd_join].
  destruct l as [|x l]; [done|].
  pose proof Hl as Hl'. apply Forall_cons in Hl' as [[Hx Tx] _].
  apply trimmed_parts in Tx as [Tx _]. apply trimStart_fixed.
  destruct l as [|y l]; [done|]. rewrite join_cons_cons.
  by apply ws_head_line.
Qed.

(** Lines go in and come out: when the value of an input is a list of
    lines, each of them not empty, without white space at its ends and
    without a line feed inside, [getListInput] returns that list. *)
Theorem getListInput_round_trip input required l s :
  l ≠ [] →
  Forall (λ x, x ≠ "" ∧ Js.trim x = x ∧ no_char "010" x = true) l →
  (getListInput input required
     (set_env (insert ("INPUT_" +:+ input_prop input) (Js.join Js.LF l)) s)).1
  = Ok l.
Proof.
  intros Hne Hl.
  assert (Forall (λ x, x ≠ "" ∧ Js.trim x = x) l) as Hl1
    by (eapply Forall_impl; [exact Hl|]; by intros y (? & ? & _)).
  assert (Forall (λ x, no_char "010" x = true) l) as Hl2
    by (eapply Forall_impl; [exact Hl|]; by intros y (_ & _ & ?)).
  unfold getListInput. rewrite getDelimitedInput_run.
  unfold input_value. cbn [env set_env]. rewrite lookup_insert_eq.
  cbn [default from_option id].
  assert (Js.blank (Js.join Js.LF l) = false) as ->.
  { rewrite <- falsy_trim, trim_join by done.
    destruct l as [|x l]; [done|]. apply Forall_cons in Hl1 as [[Hx _] _].
    pose proof (join_not_empty Js.LF x l Hx). by destruct (Js.join _ _). }
  rewrite andb_false_r, trim_join by done.
  unfold Js.LF. rewrite split_join by done. f_equal.
  clear Hne Hl Hl2. induction l as [|x l IH]; [done|].
  apply Forall_cons in Hl1 as [[Hx Tx] Hl1].
  rewrite filter_cons_True, IH; [done..|].
  rewrite <- falsy_trim, Tx. by destruct x.
Qed.

Lemma getListInput_round_trip_witness :
  ["build"; "unit test"] ≠ []
  ∧ Forall (λ x, x ≠ "" ∧ Js.trim x = x ∧ no_char "010" x = true)
           ["build"; "unit test"]
  ∧ (getListInput "steps" true
       (set_env (insert ("INPUT_" +:+ input_prop "steps")
                        (Js.join Js.LF ["build"; "unit test"]))
                (Sample.state ∅))).1
    = Ok ["build"; "unit test"].
Proof.
  assert (Forall (λ x, x ≠ "" ∧ Js.trim x = x ∧ no_char "010" x = true)
                 ["build"; "unit test"]) as H.
  { apply Forall_cons_2; [by repeat split|].
    apply Forall_cons_2; [by repeat split|]. apply Forall_nil_2. }
  split; [done|]. split; [exact H|].
  exact (getListInput_round_trip "steps" true ["build"; "unit test"]
           (Sample.state ∅) ltac:(done) H).
Defined.

(** The entries that [getDelimitedInput] returns for a delimiter of one
    character are never blank and never contain the delimiter; the method
    throws only for a required input that is blank. *)
Theorem getDelimitedInput_entries input d required s :
  match (getDelimitedInput input (String d "") required s).1 with
  | Ok l => Forall (λ x, Js.blank x = false ∧ no_char d x = true) l
  | Throw e =>
      required = true ∧ Js.blank (input_value s input) = true
      ∧ e = Error ("Input required and not supplied: " +:+ input_prop input)
  end.
Proof.
  rewrite getDelimitedInput_run.
  pose proof (split_pieces d (Js.trim (input_value s input))) as Hp.
  rewrite Forall_forall in Hp.
  destruct required, (Js.blank (input_value s input)) eqn:B;
    cbv beta iota delta [andb]; try done.
  all: apply Forall_forall; intros x [Hx Hin]%list_elem_of_filter;
    split; [done|by apply Hp].
Qed.

(** ** The two spellings of a reference *)

Lemma upper_char_facts c :
  Ref.name_start (Js.upper_char c) = Ref.name_start c
  ∧ Ref.name_char (Js.upper_char c) = Ref.name_char c
  ∧ Js.upper_char (Js.upper_char c) = Js.upper_char c.
Proof. destruct c as [[] [] [] [] [] [] [] []]; by vm_compute. Qed.

Lemma lower_char_facts c :
  Ref.name_start (Js.lower_char c) = Ref.name_start c
  ∧ Ref.name_char (Js.lower_char c) = Ref.name_char c
  ∧ Js.upper_char (Js.lower_char c) = Js.upper_char c.
Proof. destruct c as [[] [] [] [] [] [] [] []]; by vm_compute. Qed.

Lemma all_name_chars_case f n :
  (∀ c, Ref.name_char (f c) = Ref.name_char c) →
  Ref.all_name_chars (Js.map_chars f n) = Ref.all_name_chars n.
Proof.
  intros Hf. induction n as [|c n IH]; [done|].
  cbn [Js.map_chars Ref.all_name_chars]. by rewrite Hf, IH.
Qed.

Lemma valid_name_case f n :
  (∀ c, Ref.name_start (f c) = Ref.name_start c) →
  (∀ c, Ref.name_char (f c) = Ref.name_char c) →
  Ref.valid_name (Js.map_chars f n) = Ref.valid_name n.
Proof.
  intros Hs Hc. destruct n as [|c n]; [done|].
  cbn [Js.map_chars Ref.valid_name]. by rewrite Hs, all_name_chars_case.
Qed.

Lemma upper_after f n :
  (∀ c, Js.upper_char (f c) = Js.upper_char c) →
  Js.toUpperCase (Js.map_chars f n) = Js.toUpperCase n.
Proof.
  intros Hf. unfold Js.toUpperCase. induction n as [|c n IH]; [done|].
  cbn [Js.map_chars]. by rewrite Hf, IH.
Qed.

Lemma expansion_of_reference s pre n rest :
  Ref.no_dollar pre = true → Ref.valid_name n = true →
  Ref.continues rest = false →
  Ref.replace (env_value s) (pre +:+ "$" +:+ n +:+ rest)
  = pre +:+ env_value s n +:+ Ref.replace (env_value s) rest.
Proof.
  intros Hpre Hn Hrest. rewrite replace_text by done. f_equal.
  apply (replace_reference _ (n +:+ rest)); [by apply reference_plain|eauto].
Qed.

Lemma expansion_of_braces s pre n rest :
  Ref.no_dollar pre = true → Ref.valid_name n = true →
  Ref.replace (env_value s) (pre +:+ "${" +:+ n +:+ "}" +:+ rest)
  = pre +:+ env_value s n +:+ Ref.replace (env_value s) rest.
Proof.
  intros Hpre Hn. rewrite replace_text by done. f_equal.
  apply (replace_reference _ ("{" +:+ n +:+ "}" +:+ rest)).
  - by apply reference_braced.
  - exists ("{" +:+ n +:+ "}"). by rewrite !app_assoc_s.
Qed.

(** A reference expands the same way whether it is written with or
    without braces, and whatever the case of the letters of its name:
    [${home}], [$home], [$HOME] all give the value of [HOME]. *)
Theorem getExpandedString_spellings_agree s pre n rest :
  Ref.no_dollar pre = true →
  Ref.valid_name n = true →
  Ref.continues rest = false →
  (getExpandedString (pre +:+ "${" +:+ n +:+ "}" +:+ rest) s).1
    = (getExpandedString (pre +:+ "$" +:+ n +:+ rest) s).1
  ∧ (getExpandedString (pre +:+ "$" +:+ Js.toUpperCase n +:+ rest) s).1
    = (getExpandedString (pre +:+ "$" +:+ n +:+ rest) s).1
  ∧ (getExpandedString (pre +:+ "$" +:+ Js.toLowerCase n +:+ rest) s).1
    = (getExpandedString (pre +:+ "$" +:+ n +:+ rest) s).1.
Proof.
  intros Hpre Hn Hrest. rewrite !getExpandedString_run.
  assert (Ref.valid_name (Js.toUpperCase n) = true) as Hup.
  { unfold Js.toUpperCase. rewrite valid_name_case; [done|..];
      intros c; apply upper_char_facts. }
  assert (Ref.valid_name (Js.toLowerCase n) = true) as Hlow.
  { unfold Js.toLowerCase. rewrite valid_name_case; [done|..];
      intros c; apply lower_char_facts. }
  assert (env_value s (Js.toUpperCase n) = env_value s n) as Eup.
  { unfold env_value.
    change (Js.toUpperCase (Js.toUpperCase n))
      with (Js.toUpperCase (Js.map_chars Js.upper_char n)).
    rewrite upper_after; [done|]. intros c. apply upper_char_facts. }
  assert (env_value s (Js.toLowerCase n) = env_value s n) as Elow.
  { unfold env_value.
    change (Js.toUpperCase (Js.toLowerCase n))
      with (Js.toUpperCase (Js.map_chars Js.lower_char n)).
    rewrite upper_after; [done|]. intros c. apply lower_char_facts. }
  rewrite expansion_of_braces, !expansion_of_reference by done.
  by rewrite Eup, Elow.
Qed.

Lemma getExpandedString_spellings_agree_witness :
  let s := Sample.state {[ "HOME" := "/h" ]} in
  Ref.no_dollar "cd " = true
  ∧ Ref.valid_name "Home" = true
  ∧ Ref.continues "/x" = false
  ∧ (getExpandedString "cd ${Home}/x" s).1 = (getExpandedString "cd $Home/x" s).1
  ∧ (getExpandedString "cd $HOME/x" s).1 = (getExpandedString "cd $Home/x" s).1
  ∧ (getExpandedString "cd $home/x" s).1 = (getExpandedString "cd $Home/x" s).1.
Proof.
  intros s. repeat (split; [reflexivity|]).
  apply (getExpandedString_spellings_agree s "cd " "Home" "/x"); reflexivity.
Defined.

(** ** Entries of the cache *)

Lemma source_apart t0 kd ks (present : bool) t2 t3 :
  Fs.well_formed t0 →
  (present = true ↔ Fs.lookup t0 kd = Some Fs.EDir) →
  Fs.mkdirp kd (if present then Fs.remove kd t0 else t0) = Some t2 →
  Fs.copy ks kd t2 = inr t3 →
  ¬ ks `prefix_of` kd ∧ ¬ kd `prefix_of` ks.
Proof.
  intros Hwf Hpresent Hmk Hcp.
  pose proof (mkdirp_Some _ _ _ Hmk) as Hm2.
  apply copy_onto_directory in Hcp as (Hsrc & Hne & Hnp & _);
    [|by eapply lookup_after_mkdirp].
  split; [done|]. intros [r ->].
  destruct r as [|x r]; [by rewrite app_nil_r in Hne|].
  rewrite lookup_below, Hm2 in Hsrc by done.
  rewrite decide_False in Hsrc.
  - destruct present eqn:Ep.
    + rewrite lookup_remove, decide_True in Hsrc; [done|]. by apply prefix_app_r.
    + apply well_formed_above in Hsrc; [|done..].
      apply Hpresent in Hsrc. done.
  - rewrite elem_of_ancestors. intros [_ Hp%prefix_length].
    rewrite length_app in Hp. simpl in Hp. lia.
Qed.

Section Entries.

Context `{agent : BuildAgent}.
Variable semver_clean : string → option string.

(** [cacheToolDirectory] succeeds only for a source that is a directory,
    and one that lies apart from the entry: neither of the two paths is at
    or below the other.  In particular a file is never cached, and the
    source is not the entry's own directory. *)
Theorem cached_source_is_a_directory_apart srcDir tool version s p s1 :
  Fs.well_formed (tree s) →
  cacheToolDirectory semver_clean srcDir tool version s = (Ok p, s1) →
  Fs.lookup (tree s) (key_of s srcDir) = Some Fs.EDir
  ∧ ¬ key_of s srcDir `prefix_of` key_of s p
  ∧ ¬ key_of s p `prefix_of` key_of s srcDir.
Proof.
  intros Hwf H.
  pose proof (cached_present _ _ _ _ _ _ _ Hwf H) as Hpresent.
  pose proof H as (_ & _ & _ & _ & Hfault & t2 & Hmk & Hcp)%cacheToolDirectory_ok.
  split; [|by eapply source_apart].
  destruct (cached_contents _ _ _ _ _ _ Hwf Hpresent Hmk Hcp) as [Hd Hsame].
  specialize (Hsame []). rewrite !app_nil_r in Hsame. congruence.
Qed.

Lemma cacheToolDirectory_entry srcDir tool version s p s1 :
  Fs.well_formed (tree s) →
  cacheToolDirectory semver_clean srcDir tool version s = (Ok p, s1) →
  seen s1 p = Some Fs.EDir.
Proof.
  intros Hwf H.
  pose proof (cached_present _ _ _ _ _ _ _ Hwf H) as Hpresent.
  pose proof (cached_well_formed _ _ _ _ _ _ _ Hwf H) as Hwf1.
  pose proof H as (_ & _ & (root & Hroot & Hp) & Hs1 & Hfault & t2 & Hmk & Hcp)%cacheToolDirectory_ok.
  destruct (cached_contents _ _ _ _ _ _ Hwf Hpresent Hmk Hcp) as [Hd _].
  rewrite cacheDir_run in Hroot. injection Hroot as Hroot.
  rewrite <- (same_host_key _ _ _ Hs1) in Hd. subst p.
  apply seen_joined; [done| | |done].
  - subst root. apply resolve_is_absolute.
  - rewrite (same_host_key _ _ _ Hs1). by destruct Hs1 as (_ & _ & ->).
Qed.

(** The entry is keyed by the cleaned version: a tool cached under one
    spelling of a version is found under every spelling that cleans to the
    same text. *)
Theorem cached_tool_found_under_other_spelling
    srcDir c t version c' v s p s1 :
  Fs.well_formed (tree s) →
  cacheToolDirectory semver_clean srcDir (String c t) version s = (Ok p, s1) →
  clean_or_raw semver_clean (String c' v) = clean_or_raw semver_clean version →
  (findLocalTool semver_clean (String c t) (String c' v) s1).1 = Ok (Some p).
Proof.
  intros Hwf H Hclean.
  pose proof (cacheToolDirectory_entry _ _ _ _ _ _ Hwf H) as Hseen.
  destruct (cacheToolDirectory_path _ _ _ _ _ _ _ H) as [(E1 & C1 & _) Hp].
  destruct (findLocalTool_run semver_clean c t c' v s1) as (s2 & -> & _).
  assert (process_cwd s1 = process_cwd s) as ->
    by (unfold process_cwd; by rewrite C1).
  rewrite E1, Hclean, <- Hp. cbn [fst].
  by rewrite bool_decide_eq_true_2.
Qed.


End Entries.

Lemma cached_source_is_a_directory_apart_witness :
  Fs.well_formed (tree sample_host)
  ∧ cacheToolDirectory (agent := Sample.agent) Sample.clean
      "dl" "tool" "1.2.3" sample_host
    = (Ok "/opt/cache/tool/1.2.3", sample_cached)
  ∧ Fs.lookup (tree sample_host) (key_of sample_host "dl") = Some Fs.EDir
  ∧ ¬ key_of sample_host "dl" `prefix_of` key_of sample_host "/opt/cache/tool/1.2.3"
  ∧ ¬ key_of sample_host "/opt/cache/tool/1.2.3" `prefix_of` key_of sample_host "dl".
Proof.
  assert (Fs.well_formed (tree sample_host)) as Hwf
    by (apply well_formedb_sound; vm_compute; reflexivity).
  assert (cacheToolDirectory (agent := Sample.agent) Sample.clean
            "dl" "tool" "1.2.3" sample_host
          = (Ok "/opt/cache/tool/1.2.3", sample_cached)) as H1.
  { unfold sample_cached.
    rewrite (surjective_pairing (cacheToolDirectory _ _ _ _ _)) at 1.
    apply (f_equal (λ x, (x, _))). vm_compute. reflexivity. }
  split; [exact Hwf|]. split; [exact H1|].
  exact (cached_source_is_a_directory_apart (agent := Sample.agent)
           Sample.clean "dl" "tool" "1.2.3" sample_host
           "/opt/cache/tool/1.2.3" sample_cached Hwf H1).
Defined.

Lemma cached_tool_found_under_other_spelling_witness :
  Fs.well_formed (tree sample_host)
  ∧ cacheToolDirectory (agent := Sample.agent) Sample.clean
      "dl" "tool" "1.2.3" sample_host
    = (Ok "/opt/cache/tool/1.2.3", sample_cached)
  ∧ clean_or_raw Sample.clean " =v1.2.3" = clean_or_raw Sample.clean "1.2.3"
  ∧ (findLocalTool (agent := Sample.agent) Sample.clean "tool" " =v1.2.3"
       sample_cached).1 = Ok (Some "/opt/cache/tool/1.2.3").
Proof.
  assert (Fs.well_formed (tree sample_host)) as Hwf
    by (apply well_formedb_sound; vm_compute; reflexivity).
  assert (cacheToolDirectory (agent := Sample.agent) Sample.clean
            "dl" "tool" "1.2.3" sample_host
          = (Ok "/opt/cache/tool/1.2.3", sample_cached)) as H1.
  { unfold sample_cached.
    rewrite (surjective_pairing (cacheToolDirectory _ _ _ _ _)) at 1.
    apply (f_equal (λ x, (x, _))). vm_compute. reflexivity. }
  split; [exact Hwf|]. split; [exact H1|]. split; [reflexivity|].
  exact (cached_tool_found_under_other_spelling (agent := Sample.agent)
           Sample.clean "dl" "t" "ool" "1.2.3" " " "=v1.2.3" sample_host
           "/opt/cache/tool/1.2.3" sample_cached Hwf H1 eq_refl).
Defined.

